(** * Uptime monitor: the check engine and the paginated status endpoint

    A shallow embedding of [main.go]: the status map and the transition
    logic of [checkWebsite], the rounds of [startMonitoring], the
    pagination of [statusHandler] over Go's 64-bit [int], and the start-up
    sequence of [main]. *)

From Stdlib Require Import ZArith Lia Ascii String DecimalString.
From stdpp Require Import gmap strings list fin_maps sorting.

Set Warnings "-clear-no-such-hyp".

Local Open Scope string_scope.
Local Open Scope list_scope.
Local Open Scope Z_scope.

(** ** Configuration (main.go, lines 15-26) *)

Record EmailConfig := mkEmailConfig {
  SMTPHost : string;
  SMTPPort : Z;
  Sender : string;
  Password : string;
  Recipient : string
}.

Record Config := mkConfig {
  Websites : list string;
  Email : EmailConfig
}.

(** ** The observable world of the check engine

    [statusMap] is the package-level map of line 40.  Everything the engine
    writes to the outside is recorded, in order, in [out]: the three
    [Printf] lines of [checkWebsite] and each call of [sendEmail]. *)

Inductive Event :=
  | PrintDownErr (url err : string)
  | PrintUp (url status : string)
  | PrintDownStatus (url status : string)
  | SendEmail (emailConfig : EmailConfig) (url : string).

Record World := mkWorld {
  statusMap : gmap string string;
  out : list Event
}.

(** [var statusMap = make(map[string]string)]: the map starts empty. *)
Definition init : World := mkWorld ∅ [].

(** What [http.Get] hands back: an error, or a response with its status
    code and status line. *)
Inductive HttpResult :=
  | GetError (err : string)
  | GetResponse (StatusCode : Z) (Status : string).

(** ** A state monad for the body of [checkWebsite]

    The body runs between [statusMutex.Lock()] and the deferred [Unlock],
    so it is one atomic transformer of the world. *)

Definition M (A : Type) : Type := World → A * World.

Global Instance M_ret : MRet M := λ A (a : A) w, (a, w).
Global Instance M_bind : MBind M := λ A B (f : A → M B) (m : M A) w,
  let '(a, w') := m w in f a w'.

(** [statusMap[url]] read: a missing key reads as the empty string. *)
Definition map_get (url : string) : M string :=
  λ w, (default "" (statusMap w !! url), w).

(** [statusMap[url] = v] *)
Definition map_set (url v : string) : M unit :=
  λ w, (tt, mkWorld (<[url := v]> (statusMap w)) (out w)).

Definition emit (e : Event) : M unit :=
  λ w, (tt, mkWorld (statusMap w) (out w ++ [e])).

(** [sendEmail(emailConfig, url)]: the call is what counts as a
    notification; whether the SMTP delivery succeeds only changes what
    [sendEmail] prints, never the status map. *)
Definition sendEmail (emailConfig : EmailConfig) (url : string) : M unit :=
  emit (SendEmail emailConfig url).

Definition exec {A} (m : M A) (w : World) : World := snd (m w).

(** ** [checkWebsite] (main.go, lines 61-87) *)

Definition checkWebsite (url : string) (emailConfig : EmailConfig)
    (get : HttpResult) : M unit :=
  lastStatus ← map_get url;
  match get with
  | GetError err =>
      emit (PrintDownErr url err);;
      if bool_decide (lastStatus ≠ "down") then
        sendEmail emailConfig url;;
        map_set url "down"
      else mret tt
  | GetResponse StatusCode Status =>
      if (200 <=? StatusCode) && (StatusCode <=? 299) then
        emit (PrintUp url Status);;
        map_set url "up"
      else
        emit (PrintDownStatus url Status);;
        if bool_decide (lastStatus ≠ "down") then
          sendEmail emailConfig url;;
          map_set url "down"
        else mret tt
  end.

(** ** [startMonitoring] (main.go, lines 89-120)

    A round starts one goroutine per entry of [config.Websites] and waits
    for all of them.  Each goroutine performs its [http.Get] and then runs
    the body of [checkWebsite] under the mutex, so a round is a sequence of
    [checkWebsite] bodies, one per listed site, in the order in which the
    goroutines win the mutex.  A schedule lists that order together with
    the result each [http.Get] produced. *)

Definition Schedule := list (string * HttpResult).

Definition run (config : Config) (sched : Schedule) (w : World) : World :=
  foldl (λ w p, exec (checkWebsite p.1 (Email config) p.2) w) w sched.

Global Arguments run : simpl never.

Definition is_round (config : Config) (sched : Schedule) : Prop :=
  sched.*1 ≡ₚ Websites config.

(** The world after the initial check and the ticker-driven cycles that
    have completed so far. *)
Definition startMonitoring (config : Config) (rounds : list Schedule) : World :=
  foldl (λ w sched, run config sched w) init rounds.

(** Every world a request handler can observe, also in the middle of a
    round: some goroutines have run their [checkWebsite], others not yet. *)
Inductive reachable (config : Config) : World → Prop :=
  | reachable_init : reachable config init
  | reachable_check w url get :
      reachable config w →
      url ∈ Websites config →
      reachable config (exec (checkWebsite url (Email config) get) w).

(** The probe outcome, as [checkWebsite] branches on it. *)
Inductive Outcome := Up | Down.

Definition outcome (get : HttpResult) : Outcome :=
  match get with
  | GetError _ => Down
  | GetResponse StatusCode _ =>
      if (200 <=? StatusCode) && (StatusCode <=? 299) then Up else Down
  end.

(** The line [checkWebsite] prints for a probe result (lines 68, 78, 81). *)
Definition printed (url : string) (get : HttpResult) : Event :=
  match get with
  | GetError err => PrintDownErr url err
  | GetResponse StatusCode Status =>
      if (200 <=? StatusCode) && (StatusCode <=? 299)
      then PrintUp url Status else PrintDownStatus url Status
  end.

(** [lastStatus] of line 65. *)
Definition lastStatus (w : World) (url : string) : string :=
  default "" (statusMap w !! url).

Global Instance Outcome_eq_dec : EqDecision Outcome.
Proof. solve_decision. Defined.

(** Calls of [sendEmail] for [url] among the events [evs]. *)
Definition email_target (e : Event) : option string :=
  match e with
  | SendEmail _ url => Some url
  | _ => None
  end.

Definition notifications (url : string) (evs : list Event) : nat :=
  length (filter (λ e, email_target e = Some url) evs).

(** The events a step added to the output. *)
Definition emitted (w w' : World) : list Event :=
  drop (length (out w)) (out w').

(** ** Go's [int] on a 64-bit platform: arithmetic wraps around *)

Definition int_min : Z := - 2 ^ 63.
Definition int_max : Z := 2 ^ 63 - 1.

Definition wrap (z : Z) : Z := (z + 2 ^ 63) mod 2 ^ 64 - 2 ^ 63.

Definition int_add (a b : Z) : Z := wrap (a + b).
Definition int_sub (a b : Z) : Z := wrap (a - b).
Definition int_mul (a b : Z) : Z := wrap (a * b).
(** Go's [/] truncates toward zero. *)
Definition int_quot (a b : Z) : Z := wrap (Z.quot a b).

(** ** Query parameters

    [r.URL.Query().Get(key)]: the first value stored under [key], the empty
    string when there is none. *)

Definition Values := list (string * string).

Fixpoint Get (q : Values) (key : string) : string :=
  match q with
  | [] => ""
  | (k, v) :: q' => if decide (k = key) then v else Get q' key
  end.

(** [strconv.Atoi] of the Go standard library, for a 64-bit [int]: an
    optional sign, then at least one decimal digit and nothing else; a
    value outside the range of [int] is an error as well.  [None] stands
    for a non-nil [err]. *)

Definition digit (c : ascii) : option Z :=
  let n := Z.of_N (N_of_ascii c) in
  if (48 <=? n) && (n <=? 57) then Some (n - 48) else None.

Fixpoint parse_digits (s : string) (acc : Z) : option Z :=
  match s with
  | EmptyString => Some acc
  | String c s' => d ← digit c; parse_digits s' (acc * 10 + d)
  end.

Definition Atoi (s : string) : option Z :=
  let '(neg, body) :=
    match s with
    | String "-"%char rest => (true, rest)
    | String "+"%char rest => (false, rest)
    | _ => (false, s)
    end in
  if decide (body = "") then None
  else
    n ← parse_digits body 0;
    let v := if (neg : bool) then - n else n in
    if (int_min <=? v) && (v <=? int_max) then Some v else None.

(** ** [statusHandler] (main.go, lines 122-183) *)

Record StatusEntry := mkStatusEntry {
  URL : string;
  Status : string
}.

Record PaginatedStatusResponse := mkResponse {
  TotalPages : Z;
  CurrentPage : Z;
  Data : list StatusEntry
}.

(** Lines 137-140. *)
Definition page_param (pageStr : string) : Z :=
  match Atoi pageStr with
  | Some page => if page <? 1 then 1 else page
  | None => 1
  end.

(** Lines 142-145. *)
Definition limit_param (limitStr : string) : Z :=
  match Atoi limitStr with
  | Some limit => if limit <? 1 then 10 else limit
  | None => 10
  end.

(** Lines 149-152: the map ranged over into a slice.  Go leaves the order
    of the iteration unspecified; [map_to_list] is one such order, and the
    sort that follows makes the result independent of it
    ([sort_by_url_order_irrelevant] below). *)
Definition snapshot (m : gmap string string) : list StatusEntry :=
  (λ kv, mkStatusEntry kv.1 kv.2) <$> map_to_list m.

(** Lines 156-158: [sort.Slice] with [statuses[i].URL < statuses[j].URL],
    the byte-wise order of Go strings. *)
Definition url_le (a b : StatusEntry) : Prop := String.le (URL a) (URL b).
Definition url_lt (a b : StatusEntry) : Prop := ¬ url_le b a.

Global Instance url_le_dec : RelDecision url_le.
Proof. intros a b. unfold url_le. apply _. Defined.

Definition sort_by_url (statuses : list StatusEntry) : list StatusEntry :=
  merge_sort url_le statuses.

(** The slice expression [s[lo:hi]].  [None] is the run-time panic
    "slice bounds out of range".  Go checks [hi] against the capacity of
    [s]; [statusHandler] never passes an [hi] above the length (lines
    168-170), where the two checks agree. *)
Definition slice {A} (s : list A) (lo hi : Z) : option (list A) :=
  if (0 <=? lo) && (lo <=? hi) && (hi <=? Z.of_nat (length s))
  then Some (take (Z.to_nat (hi - lo)) (drop (Z.to_nat lo) s))
  else None.

(** Lines 160-178, for the effective [page] and [limit].  Integer division
    by zero panics in Go as well. *)
Definition paginate (page limit : Z) (statuses : list StatusEntry)
    : option PaginatedStatusResponse :=
  if decide (limit = 0) then None
  else
    let totalItems := Z.of_nat (length statuses) in
    let totalPages := int_quot (int_sub (int_add totalItems limit) 1) limit in
    let start := int_mul (int_sub page 1) limit in
    let end_ := int_add start limit in
    let start := if totalItems <? start then totalItems else start in
    let end_ := if totalItems <? end_ then totalItems else end_ in
    paginatedData ← slice statuses start end_;
    Some (mkResponse totalPages page paginatedData).

(** The handler: [None] when it panics, otherwise the response it
    encodes. *)
Definition statusHandler (q : Values) (m : gmap string string)
    : option PaginatedStatusResponse :=
  let pageStr := Get q "page" in
  let limitStr := Get q "limit" in
  let page := page_param pageStr in
  let limit := limit_param limitStr in
  let statuses := snapshot m in
  let statuses := sort_by_url statuses in
  paginate page limit statuses.

(** What a client obtains by requesting the pages 1 .. [totalPages] for
    one [limit] over one sorted snapshot and appending their [data]
    arrays; [totalPages] is read from the first response.  [None] if one of
    the requests panics. *)
Definition all_pages (limit : Z) (statuses : list StatusEntry)
    : option (list StatusEntry) :=
  first ← paginate 1 limit statuses;
  pages ← mapM (λ page, Data <$> paginate page limit statuses)
             (Z.of_nat <$> seq 1 (Z.to_nat (TotalPages first)));
  Some (concat pages).

(** The mathematical ceiling of [a / b], for comparison with line 161. *)
Definition ceil_div (a b : Z) : Z := - ((- a) `div` b).

(** The [data] arrays of the pages 1 .. [total_pages] for one [limit] over
    one sorted snapshot, appended; [None] if one of the requests panics. *)
Definition pages_1_to (total_pages limit : Z) (statuses : list StatusEntry)
    : option (list StatusEntry) :=
  pages ← mapM (λ page, Data <$> paginate page limit statuses)
             (Z.of_nat <$> seq 1 (Z.to_nat total_pages));
  Some (concat pages).

(** ** [loadConfiguration] and [main] (main.go, lines 28-38 and 193-202) *)

Inductive Action :=
  | Println (line : string)
  | PrintlnError (line err : string)
  | GoStartAPIServer
  | StartMonitoring (config : Config).

Definition zeroConfig : Config := mkConfig [] (mkEmailConfig "" 0 "" "" "").

Section Startup.
(** [os.Open] followed by reading: the contents of the file, or the
    error. *)
Variable os_Open : string → string + string.
(** [json.NewDecoder(f).Decode(&config)] on a zero [Config]: what the
    decoder left in [config], and its error if any. *)
Variable json_Decode : string → Config * option string.

Definition loadConfiguration (file : string) : Config * option string :=
  match os_Open file with
  | inr err => (zeroConfig, Some err)
  | inl contents => json_Decode contents
  end.

(** What [main] does, in order.  [startMonitoring] never returns, so it
    is the last action when it is reached. *)
Definition main : list Action :=
  Println "Uptime Monitor Starting..." ::
  let '(config, err) := loadConfiguration "config.json" in
  match err with
  | Some e => [PrintlnError "Error loading configuration:" e]
  | None => [GoStartAPIServer; StartMonitoring config]
  end.
End Startup.

(** How the process ends.  [main] calls neither [os.Exit] nor [log.Fatal]:
    on a configuration error it prints with [fmt.Println], which writes to
    standard output, and returns (lines 197-198), and a Go program whose
    [main] returns exits with status 0.  Otherwise it enters
    [startMonitoring], whose loop (line 105) has no exit. *)
Inductive Termination :=
  | Exits (status : Z)
  | NeverReturns.

Definition main_termination (os_Open : string → string + string)
    (json_Decode : string → Config * option string) : Termination :=
  match (loadConfiguration os_Open json_Decode "config.json").2 with
  | Some _ => Exits 0
  | None => NeverReturns
  end.

(** ** Reading a schedule

    What a schedule says about one site: its probes in the order in which
    they ran, the string [checkWebsite] stores for an outcome (lines 71,
    79, 84), and the number of outages the outcomes of one site amount to,
    an outage being a Down outcome that does not follow a stored [down]. *)

Definition probes_of (url : string) (sched : list (string * HttpResult))
    : list (string * HttpResult) :=
  filter (λ p, p.1 = url) sched.

Definition status_of (o : Outcome) : string :=
  match o with
  | Up => "up"
  | Down => "down"
  end.

Fixpoint outages (stored : string) (os : list Outcome) : nat :=
  match os with
  | [] => 0
  | Up :: os => outages "up" os
  | Down :: os =>
      ((if decide (stored = "down") then 0 else 1) + outages "down" os)%nat
  end.

Definition is_print (e : Event) : Prop := email_target e = None.

Global Instance is_print_dec e : Decision (is_print e).
Proof. unfold is_print. apply _. Defined.

(** ** [sendEmail] in full (main.go, lines 43-59)

    The one call of [smtp.SendMail] with its five arguments, and what the
    function prints for either result of that call.  [itoa] is the [%d] of
    [fmt.Sprintf]. *)

Definition CR : ascii := "013"%char.
Definition LF : ascii := "010"%char.
Definition CRLF : string := String CR (String LF "").

Definition itoa (z : Z) : string := NilZero.string_of_int (Z.to_int z).

Record PlainAuth := mkPlainAuth {
  identity : string;
  username : string;
  password : string;
  host : string
}.

Record SendMail := mkSendMail {
  addr : string;
  auth : PlainAuth;
  from : string;
  to : list string;
  msg : string
}.

Definition email_msg (emailConfig : EmailConfig) (url : string) : string :=
  ("To: " ++ Recipient emailConfig ++ CRLF ++
   "Subject: Website Down: " ++ url ++ CRLF ++
   CRLF ++
   "The website " ++ url ++ " is currently down." ++ CRLF)%string.

Definition email_call (emailConfig : EmailConfig) (url : string) : SendMail :=
  let auth := mkPlainAuth "" (Sender emailConfig) (Password emailConfig)
                (SMTPHost emailConfig) in
  let to := [Recipient emailConfig] in
  let msg := email_msg emailConfig url in
  let addr := (SMTPHost emailConfig ++ ":" ++ itoa (SMTPPort emailConfig))%string in
  mkSendMail addr auth (Sender emailConfig) to msg.

(** The lines [sendEmail] prints, given the error of [smtp.SendMail]. *)
Definition email_prints (url : string) (err : option string) : list string :=
  match err with
  | Some e =>
      [("Error sending email for " ++ url ++ ": " ++ e ++ String LF "")%string;
       ("Please ensure your email settings in config.json are correct." ++
        String LF "")%string]
  | None => [("Email notification sent for " ++ url ++ String LF "")%string]
  end.

(** A message as the receiving side reads it: cut at every CR LF.  The
    last element is what follows the last CR LF. *)
Fixpoint split_crlf (s : string) : list string :=
  match s with
  | EmptyString => [""]
  | String c s' =>
      let continue :=
        match split_crlf s' with
        | line :: lines => String c line :: lines
        | [] => [String c ""]
        end in
      if decide (c = CR) then
        match s' with
        | String c' rest =>
            if decide (c' = LF) then "" :: split_crlf rest else continue
        | EmptyString => continue
        end
      else continue
  end.

Fixpoint has_CR (s : string) : bool :=
  match s with
  | EmptyString => false
  | String c s' => bool_decide (c = CR) || has_CR s'
  end.

(** ** The [data] slice as a Go value (main.go, lines 149-172)

    [var statuses []StatusEntry] is a nil slice; [append] makes it non-nil,
    [sort.Slice] and the slice expression keep a nil slice nil, and
    [encoding/json] writes a nil slice as [null] and an empty non-nil one
    as an empty array. *)

Inductive GoSlice :=
  | NilSlice
  | Slice (elems : list StatusEntry).

Definition go_elems (s : GoSlice) : list StatusEntry :=
  match s with
  | NilSlice => []
  | Slice l => l
  end.

Definition go_append (s : GoSlice) (e : StatusEntry) : GoSlice :=
  Slice (go_elems s ++ [e]).

Definition go_sort (s : GoSlice) : GoSlice :=
  match s with
  | NilSlice => NilSlice
  | Slice l => Slice (sort_by_url l)
  end.

Definition go_slice (s : GoSlice) (lo hi : Z) : option GoSlice :=
  match s with
  | NilSlice => if (lo =? 0) && (hi =? 0) then Some NilSlice else None
  | Slice l => Slice <$> slice l lo hi
  end.

(** Lines 149-152. *)
Definition collect (m : gmap string string) : GoSlice :=
  foldl (λ s kv, go_append s (mkStatusEntry kv.1 kv.2)) NilSlice
    (map_to_list m).

(** Lines 156-172: the value of [paginatedData]. *)
Definition paginatedData (page limit : Z) (statuses : GoSlice)
    : option GoSlice :=
  if decide (limit = 0) then None
  else
    let statuses := go_sort statuses in
    let totalItems := Z.of_nat (length (go_elems statuses)) in
    let start := int_mul (int_sub page 1) limit in
    let end_ := int_add start limit in
    let start := if totalItems <? start then totalItems else start in
    let end_ := if totalItems <? end_ then totalItems else end_ in
    go_slice statuses start end_.

Definition statusHandler_data (q : Values) (m : gmap string string)
    : option GoSlice :=
  paginatedData (page_param (Get q "page")) (limit_param (Get q "limit"))
    (collect m).

(** ** Sample data for the concrete instances below *)

Definition sample_email : EmailConfig :=
  mkEmailConfig "smtp.example.com" 587 "monitor@example.com" "secret"
    "admin@example.com".

Definition sample_config : Config :=
  mkConfig ["a.com"; "b.com"; "c.com"] sample_email.

(** A target that is already recorded as down. *)
Definition x_down : World := mkWorld {["x.com" := "down"]} [].

Definition three_downs : Schedule :=
  [("x.com", GetError "dial tcp: connection refused");
   ("x.com", GetResponse 503 "503 Service Unavailable");
   ("x.com", GetError "context deadline exceeded")].

(** One round over [sample_config], the goroutines finishing out of
    order. *)
Definition sample_round : Schedule :=
  [("b.com", GetResponse 200 "200 OK");
   ("c.com", GetError "no such host");
   ("a.com", GetResponse 500 "500 Internal Server Error")].

(** The probes of [sample_round] in the order of the configuration. *)
Definition sample_round_in_order : Schedule :=
  [("a.com", GetResponse 500 "500 Internal Server Error");
   ("b.com", GetResponse 200 "200 OK");
   ("c.com", GetError "no such host")].

(** The map after one round over [sample_config]. *)
Definition sample_map : gmap string string :=
  statusMap (startMonitoring sample_config [sample_round]).

(** A file system without [config.json], and a decoder that rejects every
    input. *)
Definition no_file : string → string + string :=
  λ _, inr "open config.json: no such file or directory".
Definition reject_all : string → Config * option string :=
  λ _, (zeroConfig, Some "unexpected end of JSON input").

(** * Properties of [checkWebsite] *)

Section CheckWebsite.
Context (url : string) (emailConfig : EmailConfig).

(** The three ways the body can go, as one equation. *)
Lemma exec_checkWebsite get w :
  exec (checkWebsite url emailConfig get) w =
  match outcome get with
  | Up => mkWorld (<[url := "up"]> (statusMap w)) (out w ++ [printed url get])
  | Down =>
      if bool_decide (lastStatus w url ≠ "down")
      then mkWorld (<[url := "down"]> (statusMap w))
             (out w ++ [printed url get; SendEmail emailConfig url])
      else mkWorld (statusMap w) (out w ++ [printed url get])
  end.
Proof.
  unfold exec, checkWebsite, lastStatus, mbind, M_bind, map_get, sendEmail,
    emit, map_set, mret, M_ret.
  destruct get as [err | code st]; simpl.
  - case_bool_decide; simpl; [by rewrite <- app_assoc | done].
  - destruct ((200 <=? code) && (code <=? 299)); simpl; [done |].
    case_bool_decide; simpl; [by rewrite <- app_assoc | done].
Qed.

Lemma out_checkWebsite get w :
  out w `prefix_of` out (exec (checkWebsite url emailConfig get) w).
Proof.
  rewrite exec_checkWebsite.
  destruct (outcome get); [| case_bool_decide]; simpl; by apply prefix_app_r.
Qed.

Lemma emitted_checkWebsite get w :
  emitted w (exec (checkWebsite url emailConfig get) w) =
  match outcome get with
  | Up => [printed url get]
  | Down =>
      if bool_decide (lastStatus w url ≠ "down")
      then [printed url get; SendEmail emailConfig url]
      else [printed url get]
  end.
Proof.
  rewrite exec_checkWebsite. unfold emitted.
  destruct (outcome get); [| case_bool_decide]; simpl;
    by rewrite drop_app_length.
Qed.

Lemma printed_no_email get : email_target (printed url get) = None.
Proof.
  destruct get as [err | code st]; simpl; [done |].
  by destruct ((200 <=? code) && (code <=? 299)).
Qed.

(** A step for [url] leaves every other target alone. *)
Lemma checkWebsite_other get w u :
  u ≠ url →
  statusMap (exec (checkWebsite url emailConfig get) w) !! u = statusMap w !! u ∧
  notifications u (emitted w (exec (checkWebsite url emailConfig get) w)) = 0%nat.
Proof.
  intros Hne. rewrite emitted_checkWebsite, exec_checkWebsite.
  pose proof (printed_no_email get) as Hp.
  unfold notifications.
  destruct (outcome get); [| case_bool_decide]; simpl;
    rewrite ?lookup_insert_ne by done;
    rewrite !filter_cons, filter_nil, Hp; simpl;
    repeat case_decide; simplify_eq; done.
Qed.
End CheckWebsite.

Lemma lastStatus_down w url :
  lastStatus w url = "down" ↔ statusMap w !! url = Some "down".
Proof.
  unfold lastStatus. destruct (statusMap w !! url); simpl; naive_solver.
Qed.

Lemma notifications_app u evs1 evs2 :
  notifications u (evs1 ++ evs2) =
  (notifications u evs1 + notifications u evs2)%nat.
Proof. unfold notifications. by rewrite filter_app, length_app. Qed.

(** A step with an Up outcome, for the proofs about runs. *)
Lemma checkWebsite_up url emailConfig get w :
  outcome get = Up →
  statusMap (exec (checkWebsite url emailConfig get) w) !! url = Some "up" ∧
  (∀ e, e ∈ emitted w (exec (checkWebsite url emailConfig get) w) →
     email_target e = None) ∧
  (∀ u, notifications u
          (emitted w (exec (checkWebsite url emailConfig get) w)) = 0%nat).
Proof.
  intros Hup.
  rewrite emitted_checkWebsite, exec_checkWebsite, Hup. simpl.
  pose proof (printed_no_email url get) as Hp.
  split; [by rewrite lookup_insert_eq |]. split.
  - by intros e ->%list_elem_of_singleton.
  - intros u. unfold notifications.
    rewrite filter_cons, filter_nil, Hp. by case_decide.
Qed.

(** C8: a probe step whose outcome is Up stores [up] for the target and
    calls [sendEmail] for nobody, whatever was stored before; a recovery
    from [down] is silent too. *)
Theorem up_never_notifies url emailConfig get w :
  outcome get = Up →
  let w' := exec (checkWebsite url emailConfig get) w in
  statusMap w' !! url = Some "up" ∧
  (∀ e, e ∈ emitted w w' → email_target e = None) ∧
  (∀ u, notifications u (emitted w w') = 0%nat).
Proof.
  intros Hup. simpl.
  rewrite emitted_checkWebsite, exec_checkWebsite, Hup. simpl.
  split; [by rewrite lookup_insert_eq |].
  pose proof (printed_no_email url get) as Hp.
  split.
  - intros e ->%list_elem_of_singleton. done.
  - intros u. unfold notifications.
    rewrite filter_cons, filter_nil, Hp. by case_decide.
Qed.

Lemma up_never_notifies_witness :
  lastStatus x_down "x.com" = "down" ∧
  let w' := exec (checkWebsite "x.com" sample_email (GetResponse 200 "200 OK")) x_down in
  statusMap w' !! "x.com" = Some "up" ∧
  (∀ e, e ∈ emitted x_down w' → email_target e = None) ∧
  (∀ u, notifications u (emitted x_down w') = 0%nat).
Proof.
  split; [reflexivity |].
  apply (up_never_notifies "x.com" sample_email (GetResponse 200 "200 OK") x_down).
  reflexivity.
Defined.

(** C4: a transport error is a Down outcome; a response is an Up outcome
    exactly when its status code lies in 200..299 and a Down outcome for
    every other code.  The outcome is what the step prints and what the
    map holds for the target afterwards. *)
Theorem probe_classification url emailConfig w :
  (∀ err,
     let w' := exec (checkWebsite url emailConfig (GetError err)) w in
     outcome (GetError err) = Down ∧
     statusMap w' !! url = Some "down" ∧
     PrintDownErr url err ∈ emitted w w') ∧
  (∀ code st,
     let w' := exec (checkWebsite url emailConfig (GetResponse code st)) w in
     (outcome (GetResponse code st) = Up ↔ 200 ≤ code ≤ 299) ∧
     (outcome (GetResponse code st) = Down ↔ ¬ (200 ≤ code ≤ 299)) ∧
     (statusMap w' !! url = Some "up" ↔ 200 ≤ code ≤ 299) ∧
     (statusMap w' !! url = Some "down" ↔ ¬ (200 ≤ code ≤ 299)) ∧
     (PrintUp url st ∈ emitted w w' ↔ 200 ≤ code ≤ 299) ∧
     (PrintDownStatus url st ∈ emitted w w' ↔ ¬ (200 ≤ code ≤ 299))).
Proof.
  split.
  - intros err. simpl. rewrite emitted_checkWebsite, exec_checkWebsite. simpl.
    split; [done |]. case_bool_decide as Hl; simpl.
    + rewrite lookup_insert_eq. split; [done | by left].
    + split; [| by left]. apply lastStatus_down.
      by destruct (decide (lastStatus w url = "down")).
  - intros code st. simpl. rewrite emitted_checkWebsite, exec_checkWebsite.
    simpl.
    destruct ((200 <=? code) && (code <=? 299)) eqn:Hc.
    + assert (200 ≤ code ≤ 299) as Hr by lia. simpl.
      rewrite lookup_insert_eq, !list_elem_of_singleton. naive_solver.
    + assert (¬ (200 ≤ code ≤ 299)) as Hr by lia.
      assert (statusMap
        (if bool_decide (lastStatus w url ≠ "down")
         then mkWorld (<[url := "down"]> (statusMap w))
                (out w ++ [PrintDownStatus url st; SendEmail emailConfig url])
         else mkWorld (statusMap w) (out w ++ [PrintDownStatus url st]))
        !! url = Some "down") as ->.
      { case_bool_decide as Hl; simpl; [by rewrite lookup_insert_eq |].
        apply lastStatus_down.
        by destruct (decide (lastStatus w url = "down")). }
      case_bool_decide;
        rewrite ?elem_of_cons, ?list_elem_of_singleton, ?elem_of_nil;
        naive_solver.
Qed.

Lemma probe_classification_witness :
  (outcome (GetResponse 404 "404 Not Found") = Down ↔ ¬ (200 ≤ 404 ≤ 299)) ∧
  (statusMap
     (exec (checkWebsite "x.com" sample_email (GetResponse 404 "404 Not Found"))
        init) !! "x.com" = Some "down" ↔ ¬ (200 ≤ 404 ≤ 299)).
Proof.
  pose proof (probe_classification "x.com" sample_email init) as [_ H].
  specialize (H 404 "404 Not Found"). cbv zeta in H.
  destruct H as (_ & H2 & _ & H4 & _). split; assumption.
Defined.

(** * Runs of the check engine *)

Section Runs.
Context (config : Config).

Lemma run_cons p sched w :
  run config (p :: sched) w =
  run config sched (exec (checkWebsite p.1 (Email config) p.2) w).
Proof. done. Qed.

Lemma run_app sched1 sched2 w :
  run config (sched1 ++ sched2) w = run config sched2 (run config sched1 w).
Proof. unfold run. by rewrite foldl_app. Qed.

(** The output only grows. *)
Lemma out_run sched w : out w `prefix_of` out (run config sched w).
Proof.
  revert w. induction sched as [| p sched IH]; intros w; [done |].
  rewrite run_cons. etrans; [| apply IH]. apply out_checkWebsite.
Qed.

Lemma emitted_split w w' w'' :
  out w `prefix_of` out w' → out w' `prefix_of` out w'' →
  emitted w w'' = emitted w w' ++ emitted w' w''.
Proof.
  intros [e1 H1] [e2 H2]. unfold emitted.
  rewrite H2, H1, <- app_assoc, !drop_app_length.
  by rewrite app_assoc, drop_app_length.
Qed.

Lemma emitted_run_cons p sched w :
  let w1 := exec (checkWebsite p.1 (Email config) p.2) w in
  emitted w (run config (p :: sched) w) =
  emitted w w1 ++ emitted w1 (run config sched w1).
Proof.
  simpl. rewrite run_cons.
  apply emitted_split; [apply out_checkWebsite | apply out_run].
Qed.

Lemma emitted_refl w : emitted w w = [].
Proof. unfold emitted. apply drop_all. Qed.

(** One step for [url] with a Down outcome. *)
Lemma step_down url get w :
  outcome get = Down →
  let w' := exec (checkWebsite url (Email config) get) w in
  lastStatus w' url = "down" ∧
  notifications url (emitted w w') =
    (if decide (lastStatus w url = "down") then 0 else 1)%nat.
Proof.
  intros Hd. simpl. rewrite emitted_checkWebsite, exec_checkWebsite, Hd.
  pose proof (printed_no_email url get) as Hp. unfold notifications.
  case_bool_decide as Hl; case_decide; try done; simpl.
  - split; [unfold lastStatus; simpl; by rewrite lookup_insert_eq |].
    rewrite !filter_cons, filter_nil, Hp. simpl.
    repeat case_decide; simplify_eq; done.
  - split; [done |]. rewrite filter_cons, filter_nil, Hp.
    by case_decide.
Qed.

(** A run in which every probe of [url] comes out Down. *)
Lemma run_all_down url sched w :
  (∀ p, p ∈ sched → p.1 = url → outcome p.2 = Down) →
  let w' := run config sched w in
  (lastStatus w url = "down" →
     notifications url (emitted w w') = 0%nat ∧ lastStatus w' url = "down") ∧
  (lastStatus w url ≠ "down" → url ∉ sched.*1 →
     notifications url (emitted w w') = 0%nat ∧
     lastStatus w' url = lastStatus w url) ∧
  (lastStatus w url ≠ "down" → url ∈ sched.*1 →
     notifications url (emitted w w') = 1%nat ∧ lastStatus w' url = "down").
Proof.
  revert w. induction sched as [| [u get] sched IH]; intros w Hall; simpl.
  { unfold run; simpl. rewrite emitted_refl.
    split; [done |]. split; [done |].
    intros _ Hin. by apply elem_of_nil in Hin. }
  rewrite (emitted_run_cons (u, get) sched w), run_cons,
    notifications_app. simpl.
  set (w1 := exec (checkWebsite u (Email config) get) w).
  assert (∀ p, p ∈ sched → p.1 = url → outcome p.2 = Down) as Hall'.
  { intros p Hp. apply Hall. by right. }
  destruct (IH w1 Hall') as (IHd & IHn & IHy). clear IH.
  destruct (decide (u = url)) as [-> | Hne].
  - assert (outcome get = Down) as Hd
      by (apply (Hall (url, get)); [left | done]).
    destruct (step_down url get w Hd) as [Hs Hn]. fold w1 in Hs, Hn.
    destruct (IHd Hs) as [Hn' Hs']. rewrite Hn, Hn'.
    split; [| split].
    + intros Hl. by rewrite decide_True.
    + intros _ Hnot. exfalso. apply Hnot. by left.
    + intros Hl _. by rewrite decide_False.
  - destruct (checkWebsite_other u (Email config) get w url) as [Hm Hn];
      [done |].
    fold w1 in Hm, Hn. rewrite Hn.
    assert (lastStatus w1 url = lastStatus w url) as Hl1
      by (unfold lastStatus; by rewrite Hm).
    rewrite <- Hl1. split; [| split].
    + done.
    + intros Hl Hnot. apply IHn; [done |]. intros Hin. apply Hnot. by right.
    + intros Hl Hin. apply IHy; [done |].
      apply elem_of_cons in Hin as [? | ?]; done.
Qed.
End Runs.

(** C2: a step calls [sendEmail] for its target exactly when the outcome
    is Down and the status stored before was not [down]; after a Down step
    the stored status is [down].  Hence in a run that starts from a status
    other than [down] and in which all probes of the target come out Down,
    exactly one notification is sent for it, by the first of these probes,
    however the probes of other targets are interleaved. *)
Theorem down_transition_notifies (config : Config) (url : string) :
  (∀ get w,
     let w' := exec (checkWebsite url (Email config) get) w in
     (SendEmail (Email config) url ∈ emitted w w' ↔
        outcome get = Down ∧ lastStatus w url ≠ "down") ∧
     notifications url (emitted w w') =
       (if decide (outcome get = Down ∧ lastStatus w url ≠ "down")
        then 1 else 0)%nat ∧
     (outcome get = Down → statusMap w' !! url = Some "down")) ∧
  (∀ pre get post w,
     let sched := pre ++ (url, get) :: post in
     (∀ p, p ∈ sched → p.1 = url → outcome p.2 = Down) →
     lastStatus w url ≠ "down" →
     url ∉ pre.*1 →
     let w0 := run config pre w in
     notifications url (emitted w w0) = 0%nat ∧
     notifications url
       (emitted w0 (exec (checkWebsite url (Email config) get) w0)) = 1%nat ∧
     notifications url (emitted w (run config sched w)) = 1%nat ∧
     statusMap (run config sched w) !! url = Some "down").
Proof.
  split.
  - intros get w. simpl.
    pose proof (printed_no_email url get) as Hp.
    destruct (outcome get) eqn:Ho.
    + destruct (checkWebsite_up url (Email config) get w Ho) as (_ & He & Hn).
      split; [| split].
      * split; [| by intros [? _]]. intros Hin. by apply He in Hin.
      * rewrite Hn. case_decide as Hc; [by destruct Hc | done].
      * done.
    + destruct (step_down config url get w Ho) as [Hs Hn].
      split; [| split].
      * rewrite emitted_checkWebsite, Ho.
        case_bool_decide as Hl;
          rewrite ?elem_of_cons, ?list_elem_of_singleton, ?elem_of_nil.
        -- split; [done |]. intros _. right. by left.
        -- split; [| by intros [_ ?]].
           intros [Heq | Heq]; [| done]. rewrite <- Heq in Hp. done.
      * rewrite Hn. repeat case_decide; naive_solver.
      * intros _. by apply lastStatus_down.
  - intros pre get post w sched Hall Hl Hpre w0.
    assert (∀ p, p ∈ pre → p.1 = url → outcome p.2 = Down) as Hallpre.
    { intros p Hp. apply Hall. unfold sched. apply elem_of_app. by left. }
    destruct (run_all_down config url pre w Hallpre) as (_ & Hn & _).
    destruct (Hn Hl Hpre) as [Hn0 Hl0]. fold w0 in Hn0, Hl0.
    assert (outcome get = Down) as Hd.
    { apply (Hall (url, get)); [| done]. unfold sched.
      apply elem_of_app. right. by left. }
    destruct (step_down config url get w0 Hd) as [_ Hn1].
    rewrite decide_False in Hn1 by congruence.
    destruct (run_all_down config url sched w Hall) as (_ & _ & Hy).
    destruct Hy as [Hn2 Hl2]; [done | |].
    { unfold sched. rewrite fmap_app, elem_of_app. right. by left. }
    repeat split; try done. by apply lastStatus_down.
Qed.

Lemma down_transition_notifies_witness :
  notifications "x.com"
    (emitted init (run sample_config three_downs init)) = 1%nat ∧
  notifications "x.com"
    (emitted init
       (exec (checkWebsite "x.com" sample_email
                (GetError "dial tcp: connection refused")) init)) = 1%nat ∧
  statusMap (run sample_config three_downs init) !! "x.com" = Some "down".
Proof.
  pose proof (down_transition_notifies sample_config "x.com") as [_ H].
  specialize (H [] (GetError "dial tcp: connection refused")
    [("x.com", GetResponse 503 "503 Service Unavailable");
     ("x.com", GetError "context deadline exceeded")] init).
  cbv zeta in H.
  destruct H as (_ & H1 & H2 & H3).
  - intros p Hp _.
    repeat (apply elem_of_cons in Hp as [-> | Hp]; [reflexivity |]).
    by apply elem_of_nil in Hp.
  - vm_compute. discriminate.
  - apply not_elem_of_nil.
  - split; [exact H2 | split; [exact H1 | exact H3]].
Defined.

(** * The keys and values of the status map *)

Section Store.
Context (config : Config).

Lemma dom_checkWebsite url emailConfig get w :
  dom (statusMap (exec (checkWebsite url emailConfig get) w)) =
  {[url]} ∪ dom (statusMap w).
Proof.
  rewrite exec_checkWebsite.
  destruct (outcome get); [| case_bool_decide as Hl]; simpl;
    rewrite ?dom_insert_L; try done.
  assert (url ∈ dom (statusMap w)); [| set_solver].
  apply elem_of_dom. exists "down". apply lastStatus_down.
  by destruct (decide (lastStatus w url = "down")).
Qed.

Lemma dom_run sched w :
  dom (statusMap (run config sched w)) =
  list_to_set sched.*1 ∪ dom (statusMap w).
Proof.
  revert w. induction sched as [| p sched IH]; intros w.
  - unfold run; simpl. set_solver.
  - rewrite run_cons, IH, dom_checkWebsite. simpl. set_solver.
Qed.

Lemma dom_rounds rounds w :
  Forall (is_round config) rounds →
  dom (statusMap (foldl (λ w sched, run config sched w) w rounds)) =
  (if decide (rounds = []) then ∅ else list_to_set (Websites config))
    ∪ dom (statusMap w).
Proof.
  intros Hr. revert w. induction Hr as [| sched rounds Hs _ IH]; intros w.
  - simpl. set_solver.
  - simpl. rewrite IH, dom_run.
    rewrite (list_to_set_perm_L (C := gset string) _ _ Hs).
    destruct (decide (sched :: rounds = [])) as [? | _]; [done |].
    case_decide; set_solver.
Qed.

(** The reachable worlds are the runs of schedules over the configured
    sites. *)
Lemma reachable_run w :
  reachable config w ↔
  ∃ sched, (∀ u, u ∈ sched.*1 → u ∈ Websites config) ∧
           w = run config sched init.
Proof.
  split.
  - induction 1 as [| w url get _ (sched & Hin & ->) Hurl].
    + exists []. split; [| done]. intros u Hu. by apply elem_of_nil in Hu.
    + exists (sched ++ [(url, get)]). split.
      * intros u. rewrite fmap_app, elem_of_app. simpl.
        rewrite list_elem_of_singleton. intros [? | ->]; auto.
      * by rewrite run_app.
  - intros (sched & Hin & ->).
    induction sched as [| p sched IH] using rev_ind; [constructor |].
    rewrite run_app. destruct p as [u get]. unfold run at 1. simpl.
    constructor.
    + apply IH. intros u' Hu'. apply Hin. rewrite fmap_app, elem_of_app.
      by left.
    + apply Hin. rewrite fmap_app, elem_of_app. right. by left.
Qed.

(** A value found in the map was either there before the run or was
    written by a probe of that very key, and then it is [up] or
    [down]. *)
Lemma lookup_checkWebsite url emailConfig get w k v :
  statusMap (exec (checkWebsite url emailConfig get) w) !! k = Some v →
  statusMap w !! k = Some v ∨ (k = url ∧ (v = "up" ∨ v = "down")).
Proof.
  rewrite exec_checkWebsite.
  destruct (outcome get); [| case_bool_decide]; simpl; auto;
    (destruct (decide (url = k)) as [-> | Hne];
      [rewrite lookup_insert_eq | rewrite lookup_insert_ne by done]);
    naive_solver.
Qed.

Lemma lookup_run sched w k v :
  statusMap (run config sched w) !! k = Some v →
  statusMap w !! k = Some v ∨ (k ∈ sched.*1 ∧ (v = "up" ∨ v = "down")).
Proof.
  revert w. induction sched as [| p sched IH]; intros w; [by left |].
  rewrite run_cons. intros [H | [Hin Hv]]%IH.
  - apply lookup_checkWebsite in H as [? | [-> Hv]]; [by left |].
    right. split; [by left | done].
  - right. split; [by right | done].
Qed.
End Store.

(** C1, as stated, fails: the map is created empty, so before the first
    probe its key set is not the configured target set, no key is mapped
    to [unknown], and the first probe of a target adds its key. *)
Lemma store_not_initialised :
  reachable sample_config init ∧
  dom (statusMap init) ≠ (list_to_set (Websites sample_config) : gset string) ∧
  statusMap init !! "a.com" ≠ Some "unknown" ∧
  ("a.com" ∉ dom (statusMap init)) ∧
  ("a.com" ∈ dom (statusMap
    (exec (checkWebsite "a.com" sample_email (GetResponse 200 "200 OK")) init))).
Proof.
  split; [constructor |].
  split; [| split; [| split]].
  - intros Heq. assert ("a.com" ∈ dom (statusMap init)) as Hin.
    { rewrite Heq. apply elem_of_list_to_set. simpl. by left. }
    simpl in Hin. by apply not_elem_of_empty in Hin.
  - simpl. by rewrite lookup_empty.
  - simpl. apply not_elem_of_empty.
  - rewrite dom_checkWebsite. set_solver.
Qed.

(** C1, amended: the map starts empty and the value [unknown] is never
    stored: a probe step writes [up] or [down] for its own target and
    leaves every other entry as it was, so every value of a reachable map
    is [up] or [down].  A probe step adds the key of its target when it is
    missing and never removes a key; so at every reachable state the key
    set is contained in the configured target set, and it equals that set
    once the first round has completed. *)
Theorem store_keys (config : Config) :
  dom (statusMap init) = ∅ ∧
  (∀ url, statusMap init !! url = None) ∧
  (∀ url get w,
     dom (statusMap (exec (checkWebsite url (Email config) get) w)) =
     {[url]} ∪ dom (statusMap w)) ∧
  (∀ url get w k v,
     statusMap (exec (checkWebsite url (Email config) get) w) !! k = Some v →
     statusMap w !! k = Some v ∨ (k = url ∧ (v = "up" ∨ v = "down"))) ∧
  (∀ w, reachable config w →
     ∀ url v, statusMap w !! url = Some v →
       (v = "up" ∨ v = "down") ∧ v ≠ "unknown") ∧
  (∀ w, reachable config w →
     dom (statusMap w) ⊆ list_to_set (Websites config)) ∧
  (∀ rounds, rounds ≠ [] → Forall (is_round config) rounds →
     dom (statusMap (startMonitoring config rounds)) =
     list_to_set (Websites config)).
Proof.
  split; [simpl; by rewrite dom_empty_L |].
  split; [intros url; simpl; apply lookup_empty |].
  split; [intros; apply dom_checkWebsite |].
  split; [intros url get w k v; apply lookup_checkWebsite |].
  split; [| split].
  - intros w (sched & Hin & ->)%reachable_run url v Hl.
    apply lookup_run in Hl as [Hl | [_ Hv]].
    { simpl in Hl. by rewrite lookup_empty in Hl. }
    split; [done |]. destruct Hv as [-> | ->]; discriminate.
  - intros w (sched & Hin & ->)%reachable_run. rewrite dom_run. simpl.
    rewrite dom_empty_L. intros u Hu.
    apply elem_of_list_to_set. apply Hin.
    apply elem_of_union in Hu as [Hu | Hu]; [| by apply not_elem_of_empty in Hu].
    by apply elem_of_list_to_set in Hu.
  - intros rounds Hne Hr. unfold startMonitoring.
    rewrite (dom_rounds config rounds init Hr), decide_False by done.
    simpl. rewrite dom_empty_L. set_solver.
Qed.

Lemma store_keys_witness :
  dom (statusMap (startMonitoring sample_config [sample_round])) =
    (list_to_set (Websites sample_config) : gset string) ∧
  (("down" = "up" ∨ "down" = "down") ∧ "down" ≠ "unknown").
Proof.
  pose proof (store_keys sample_config) as (_ & _ & _ & _ & Hv & _ & H).
  split.
  - apply H; [discriminate |].
    constructor; [| constructor].
    unfold is_round. simpl.
    change ["b.com"; "c.com"; "a.com"] with (["b.com"; "c.com"] ++ ["a.com"]).
    change ["a.com"; "b.com"; "c.com"] with (["a.com"] ++ ["b.com"; "c.com"]).
    apply Permutation_app_comm.
  - apply (Hv (run sample_config sample_round init)) with "a.com".
    + apply reachable_run. exists sample_round. split; [| done].
      intros u Hu. vm_compute in Hu.
      repeat (apply elem_of_cons in Hu as [-> | Hu];
        [vm_compute; set_solver |]).
      by apply elem_of_nil in Hu.
    + vm_compute. reflexivity.
Defined.

(** * The snapshot and its order *)

Global Instance url_le_trans : Transitive url_le.
Proof. intros a b c. unfold url_le. apply transitivity. Qed.

Global Instance url_le_total : Total url_le.
Proof. intros a b. unfold url_le. apply total, _. Qed.

Lemma sort_by_url_perm l : sort_by_url l ≡ₚ l.
Proof. apply merge_sort_Permutation. Qed.

Lemma sort_by_url_sorted l : StronglySorted url_le (sort_by_url l).
Proof. apply StronglySorted_merge_sort; apply _. Qed.

Lemma length_sort_by_url l : length (sort_by_url l) = length l.
Proof. apply Permutation_length, sort_by_url_perm. Qed.

Lemma elem_of_snapshot m e :
  e ∈ snapshot m ↔ m !! URL e = Some (Status e).
Proof.
  unfold snapshot. rewrite list_elem_of_fmap. split.
  - intros ([k v] & -> & Hin). simpl. by apply elem_of_map_to_list.
  - intros Hl. exists (URL e, Status e). split; [by destruct e |].
    by apply elem_of_map_to_list.
Qed.

Lemma snapshot_NoDup m : NoDup (URL <$> snapshot m).
Proof.
  unfold snapshot. rewrite <- list_fmap_compose.
  apply (NoDup_fst_map_to_list m).
Qed.

Lemma length_snapshot m : length (snapshot m) = size m.
Proof. unfold snapshot. rewrite length_fmap. apply length_map_to_list. Qed.

Lemma URL_inj_NoDup l x y :
  NoDup (URL <$> l) → x ∈ l → y ∈ l → URL x = URL y → x = y.
Proof.
  induction l as [| a l IH]; intros Hnd Hx Hy Heq.
  { by apply elem_of_nil in Hx. }
  rewrite fmap_cons in Hnd. apply NoDup_cons in Hnd as [Ha Hnd].
  apply elem_of_cons in Hx as [-> | Hx]; apply elem_of_cons in Hy as [-> | Hy];
    auto.
  - exfalso. apply Ha. rewrite Heq. by apply list_elem_of_fmap_2.
  - exfalso. apply Ha. rewrite <- Heq. by apply list_elem_of_fmap_2.
Qed.

(** With one entry per URL, the sorted slice does not depend on the order
    in which the map was ranged over. *)
Lemma sort_by_url_order_irrelevant l1 l2 :
  NoDup (URL <$> l1) → l1 ≡ₚ l2 → sort_by_url l1 = sort_by_url l2.
Proof.
  intros Hnd Hp.
  apply (Sorted_unique_strong url_le).
  - intros x1 x2 Hx1 Hx2 H12 H21.
    apply (URL_inj_NoDup l1); [done | | |].
    + by rewrite <- (sort_by_url_perm l1).
    + rewrite Hp. by rewrite <- (sort_by_url_perm l2).
    + unfold url_le in *. by apply (anti_symm String.le).
  - apply Sorted_merge_sort, _.
  - apply Sorted_merge_sort, _.
  - by rewrite !sort_by_url_perm.
Qed.

(** With one entry per URL the order is strict: no two neighbours share a
    URL. *)
Lemma sort_by_url_strict l :
  NoDup (URL <$> l) → StronglySorted url_lt (sort_by_url l).
Proof.
  intros Hnd.
  assert (NoDup (URL <$> sort_by_url l)) as Hnd'.
  { by rewrite (sort_by_url_perm l). }
  pose proof (sort_by_url_sorted l) as Hs.
  induction Hs as [| a k Hs IH Ha]; [constructor |].
  rewrite fmap_cons in Hnd'. apply NoDup_cons in Hnd' as [Hnotin Hnd'].
  constructor; [by apply IH |].
  rewrite Forall_forall in Ha |- *. intros b Hb Hba.
  apply Hnotin.
  assert (URL a = URL b) as ->.
  { apply (anti_symm String.le); [apply (Ha b Hb) | apply Hba]. }
  by apply list_elem_of_fmap_2.
Qed.

(** * The handler's response *)

Lemma slice_Some {A} (s : list A) lo hi d :
  slice s lo hi = Some d ↔
  (0 ≤ lo ≤ hi ∧ hi ≤ Z.of_nat (length s)) ∧
  d = take (Z.to_nat (hi - lo)) (drop (Z.to_nat lo) s).
Proof.
  unfold slice.
  destruct ((0 <=? lo) && (lo <=? hi) && (hi <=? Z.of_nat (length s))) eqn:Hb.
  - split; [intros [= <-] | intros [_ ->]]; [split; [lia | done] | done].
  - split; [done | intros [? _]; lia].
Qed.

Lemma slice_sublist {A} (s : list A) lo hi d :
  slice s lo hi = Some d → d `sublist_of` s.
Proof.
  intros [_ ->]%slice_Some.
  etrans; [apply sublist_take | apply sublist_drop].
Qed.

Lemma paginate_Some page limit statuses resp :
  paginate page limit statuses = Some resp →
  CurrentPage resp = page ∧ Data resp `sublist_of` statuses.
Proof.
  unfold paginate. case_decide; [done |]. cbv zeta.
  destruct (slice statuses _ _) as [d |] eqn:Hs; simpl; [| done].
  intros [= <-]. simpl. split; [done |]. by eapply slice_sublist.
Qed.

(** The entries of a response are entries of the map. *)
Lemma statusHandler_entries q m resp e :
  statusHandler q m = Some resp →
  e ∈ Data resp → m !! URL e = Some (Status e).
Proof.
  unfold statusHandler. intros [_ Hsub]%paginate_Some Hin.
  apply elem_of_snapshot. rewrite <- (sort_by_url_perm (snapshot m)).
  eapply elem_of_sublist; eauto.
Qed.

(** C10: every entry the handler returns carries the status [up] or
    [down], never [unknown]: an entry is in the map only once a probe of
    its target has written one of the two, and a target that no probe has
    reached yet does not occur in the response. *)
Theorem response_status_up_or_down (config : Config) :
  (∀ w q resp, reachable config w →
     statusHandler q (statusMap w) = Some resp →
     ∀ e, e ∈ Data resp →
       (Status e = "up" ∨ Status e = "down") ∧ Status e ≠ "unknown" ∧
       URL e ∈ Websites config) ∧
  (∀ sched q resp url,
     statusHandler q (statusMap (run config sched init)) = Some resp →
     url ∉ sched.*1 →
     url ∉ URL <$> Data resp).
Proof.
  split.
  - intros w q resp (sched & Hin & ->)%reachable_run Hh e He.
    pose proof (statusHandler_entries _ _ _ _ Hh He) as Hl.
    apply lookup_run in Hl as [Hl | [Hk Hv]].
    { simpl in Hl. by rewrite lookup_empty in Hl. }
    split; [done |]. split; [| by apply Hin].
    destruct Hv as [-> | ->]; discriminate.
  - intros sched q resp url Hh Hnot (e & -> & He)%list_elem_of_fmap.
    pose proof (statusHandler_entries _ _ _ _ Hh He) as Hl.
    apply lookup_run in Hl as [Hl | [Hk _]]; [| done].
    simpl in Hl. by rewrite lookup_empty in Hl.
Qed.

Lemma response_status_up_or_down_witness :
  Forall (λ e, (Status e = "up" ∨ Status e = "down") ∧ Status e ≠ "unknown" ∧
               URL e ∈ Websites sample_config)
    [mkStatusEntry "a.com" "down"; mkStatusEntry "b.com" "up"].
Proof.
  pose proof (response_status_up_or_down sample_config) as [H _].
  apply Forall_forall.
  apply (H (run sample_config sample_round init)
           [("page", "1"); ("limit", "2")]
           (mkResponse 2 1
              [mkStatusEntry "a.com" "down"; mkStatusEntry "b.com" "up"])).
  - apply reachable_run. exists sample_round. split; [| done].
    intros u Hu. vm_compute in Hu.
    repeat (apply elem_of_cons in Hu as [-> | Hu];
      [vm_compute; set_solver |]).
    by apply elem_of_nil in Hu.
  - vm_compute. reflexivity.
Defined.

(** * Query parameters *)

Lemma Get_absent q key : key ∉ q.*1 → Get q key = "".
Proof.
  induction q as [| [k v] q IH]; simpl; [done |].
  intros [Hne Hnot]%not_elem_of_cons. case_decide; [done | by apply IH].
Qed.

(** * Pagination over 64-bit integers *)

Ltac int_lia := unfold int_min, int_max in *; lia.

Lemma wrap_small z : int_min ≤ z ≤ int_max → wrap z = z.
Proof.
  unfold wrap, int_min, int_max. intros Hz.
  rewrite Z.mod_small; lia.
Qed.

Lemma wrap_add_l a b : wrap (wrap a + b) = wrap (a + b).
Proof.
  unfold wrap. f_equal.
  replace ((a + 2 ^ 63) `mod` 2 ^ 64 - 2 ^ 63 + b + 2 ^ 63)
    with ((a + 2 ^ 63) `mod` 2 ^ 64 + b) by lia.
  rewrite Zplus_mod_idemp_l. f_equal. lia.
Qed.

Lemma ceil_div_spec n limit :
  0 ≤ n → 1 ≤ limit →
  ceil_div n limit = (n + limit - 1) `div` limit ∧
  n ≤ ceil_div n limit * limit ≤ n + limit - 1.
Proof.
  intros Hn Hl. unfold ceil_div.
  pose proof (Z.div_mod (- n) limit ltac:(lia)) as H1.
  pose proof (Z.mod_pos_bound (- n) limit ltac:(lia)) as H2.
  pose proof (Z.div_mod (n + limit - 1) limit ltac:(lia)) as H3.
  pose proof (Z.mod_pos_bound (n + limit - 1) limit ltac:(lia)) as H4.
  split; nia.
Qed.

(** Line 161 is the ceiling as long as [totalItems + limit - 1] fits. *)
Lemma totalPages_ceil n limit :
  0 ≤ n → 1 ≤ limit → limit ≤ int_max → n + limit - 1 ≤ int_max →
  int_quot (int_sub (int_add n limit) 1) limit = ceil_div n limit.
Proof.
  intros Hn Hl Hm Hb. unfold int_quot, int_sub, int_add.
  replace (wrap (n + limit) - 1) with (wrap (n + limit) + (- 1)) by lia.
  rewrite wrap_add_l.
  replace (n + limit + - 1) with (n + limit - 1) by lia.
  rewrite (wrap_small (n + limit - 1)) by int_lia.
  rewrite Z.quot_div_nonneg by lia.
  destruct (ceil_div_spec n limit Hn Hl) as [-> _].
  apply wrap_small.
  pose proof (Z.div_pos (n + limit - 1) limit ltac:(lia) ltac:(lia)).
  pose proof (Z.div_le_upper_bound (n + limit - 1) limit (n + limit - 1)
    ltac:(lia) ltac:(nia)).
  int_lia.
Qed.

(** Without overflow in [page * limit] the handler returns the page: the
    [limit] entries from offset [(page - 1) * limit], fewer or none at the
    end of the slice. *)
Lemma paginate_in_range page limit statuses :
  1 ≤ page → 1 ≤ limit → page * limit ≤ int_max →
  paginate page limit statuses =
  Some (mkResponse
          (int_quot (int_sub (int_add (Z.of_nat (length statuses)) limit) 1) limit)
          page
          (take (Z.to_nat limit) (drop (Z.to_nat ((page - 1) * limit)) statuses))).
Proof.
  intros Hp Hl Hb. unfold paginate. rewrite decide_False by lia. cbv zeta.
  assert (int_mul (int_sub page 1) limit = (page - 1) * limit) as ->.
  { unfold int_mul, int_sub.
    rewrite (wrap_small (page - 1)) by (unfold int_min, int_max in *; nia).
    apply wrap_small. unfold int_min, int_max in *. nia. }
  assert (int_add ((page - 1) * limit) limit = page * limit) as ->.
  { unfold int_add. replace ((page - 1) * limit + limit) with (page * limit)
      by lia. apply wrap_small. unfold int_min, int_max in *. nia. }
  set (n := Z.of_nat (length statuses)).
  set (start := (page - 1) * limit).
  assert (0 ≤ start) as Hs0 by (unfold start; nia).
  assert (page * limit = start + limit) as -> by (unfold start; lia).
  assert (∀ lo hi d,
    0 ≤ lo ≤ hi → hi ≤ n →
    d = take (Z.to_nat (hi - lo)) (drop (Z.to_nat lo) statuses) →
    slice statuses lo hi = Some d) as Hslice.
  { intros lo hi d ? ? ->. by apply slice_Some. }
  destruct (n <? start) eqn:H1; destruct (n <? start + limit) eqn:H2;
    try lia.
  - rewrite (Hslice n n []); [| lia | lia |].
    + simpl. do 2 f_equal. rewrite drop_ge by (unfold n in *; lia).
      by rewrite take_nil.
    + by rewrite Z.sub_diag.
  - rewrite (Hslice start n (drop (Z.to_nat start) statuses)); [| lia | lia |].
    + simpl. do 2 f_equal. rewrite take_ge; [done |].
      rewrite length_drop. unfold n in *. lia.
    + rewrite take_ge; [done |]. rewrite length_drop. unfold n in *. lia.
  - rewrite (Hslice start (start + limit)
      (take (Z.to_nat limit) (drop (Z.to_nat start) statuses)));
      [done | lia | lia |].
    by replace (start + limit - start) with limit by lia.
Qed.

Lemma concat_chunks {A} (l : list A) (k j : nat) :
  concat ((λ i, take k (drop (i * k) l)) <$> seq 0 j) = take (j * k) l.
Proof.
  induction j as [| j IH]; [done |].
  rewrite seq_S, fmap_app, concat_app, IH. simpl.
  rewrite app_nil_r, take_take_drop. f_equal. lia.
Qed.

Lemma mapM_fmap_ext {A B C} (f : B → option C) (g : A → B) (h : A → C) xs :
  (∀ x, x ∈ xs → f (g x) = Some (h x)) →
  mapM f (g <$> xs) = Some (h <$> xs).
Proof.
  induction xs as [| x xs IH]; intros Hf; [done |].
  assert (mapM f (g <$> xs) = Some (h <$> xs)) as IH'.
  { apply IH. intros y Hy. apply Hf. by right. }
  rewrite !fmap_cons. cbn [mapM]. rewrite (Hf x) by (by left).
  rewrite IH'. done.
Qed.

(** Pagination covers the slice: while [totalItems + limit - 1] fits into
    an [int], the pages 1 .. [totalPages] appended give back the slice
    they were cut from, each entry once and in order. *)
Lemma all_pages_cover limit statuses :
  1 ≤ limit → limit ≤ int_max →
  Z.of_nat (length statuses) + limit - 1 ≤ int_max →
  all_pages limit statuses = Some statuses.
Proof.
  intros Hl Hm Hb. unfold all_pages.
  set (n := Z.of_nat (length statuses)) in *.
  assert (0 ≤ n) as Hn by (unfold n; lia).
  rewrite paginate_in_range by lia.
  cbn [mbind option_bind TotalPages].
  fold n. rewrite (totalPages_ceil n limit) by done.
  destruct (ceil_div_spec n limit Hn Hl) as [_ [Hlo Hhi]].
  set (T := ceil_div n limit) in *.
  set (k := Z.to_nat limit).
  rewrite (mapM_fmap_ext _ Z.of_nat
    (λ i, take k (drop ((i - 1) * k) statuses))).
  - cbn [mbind option_bind]. f_equal.
    rewrite <- fmap_S_seq, <- list_fmap_compose.
    rewrite (list_fmap_ext _ (λ i, take k (drop (i * k) statuses)) (seq 0 (Z.to_nat T)));
      [| intros i x _; simpl; by rewrite Nat.sub_0_r].
    rewrite concat_chunks. apply take_ge. unfold n, k in *. nia.
  - intros i [Hi1 Hi2]%elem_of_seq.
    rewrite paginate_in_range by nia.
    cbn [fmap option_fmap option_map Data]. do 2 f_equal.
    unfold k. rewrite Z2Nat.inj_mul by lia. f_equal. lia.
Qed.

(** X10, for the handler: over one map, and while [totalItems + limit - 1]
    fits, the pages are cut from a list that holds exactly the entries of
    the map, in strictly increasing order of URL, and together they give
    that list back. *)
Lemma pages_cover_snapshot (m : gmap string string) limit :
  1 ≤ limit → limit ≤ int_max → Z.of_nat (size m) + limit - 1 ≤ int_max →
  let statuses := sort_by_url (snapshot m) in
  all_pages limit statuses = Some statuses ∧
  StronglySorted url_lt statuses ∧
  NoDup statuses ∧
  (∀ e, e ∈ statuses ↔ m !! URL e = Some (Status e)).
Proof.
  intros Hl Hm Hb statuses.
  assert (length statuses = size m) as Hlen.
  { unfold statuses. by rewrite length_sort_by_url, length_snapshot. }
  split; [| split; [| split]].
  - apply all_pages_cover; [done | done |]. by rewrite Hlen.
  - apply sort_by_url_strict, snapshot_NoDup.
  - apply (NoDup_fmap_1 URL). unfold statuses.
    rewrite (sort_by_url_perm (snapshot m)). apply snapshot_NoDup.
  - intros e. unfold statuses.
    rewrite (sort_by_url_perm (snapshot m)). apply elem_of_snapshot.
Qed.

Lemma pages_1_to_cover T limit statuses :
  1 ≤ limit → 0 ≤ T → T * limit ≤ int_max →
  Z.of_nat (length statuses) ≤ T * limit →
  pages_1_to T limit statuses = Some statuses.
Proof.
  intros Hl HT Hb Hn. unfold pages_1_to.
  set (k := Z.to_nat limit).
  rewrite (mapM_fmap_ext _ Z.of_nat
    (λ i, take k (drop ((i - 1) * k) statuses))).
  - cbn [mbind option_bind]. f_equal.
    rewrite <- fmap_S_seq, <- list_fmap_compose.
    rewrite (list_fmap_ext _ (λ i, take k (drop (i * k) statuses))
               (seq 0 (Z.to_nat T)));
      [| intros i x _; simpl; by rewrite Nat.sub_0_r].
    rewrite concat_chunks. apply take_ge. unfold k. nia.
  - intros i [Hi1 Hi2]%elem_of_seq.
    rewrite paginate_in_range by nia.
    cbn [fmap option_fmap option_map Data]. do 2 f_equal.
    unfold k. rewrite Z2Nat.inj_mul by lia. f_equal. lia.
Qed.

Lemma ceil_pages_fit n limit :
  0 ≤ n ≤ 2 ^ 62 → 1 ≤ limit ≤ int_max →
  0 ≤ ceil_div n limit ∧ ceil_div n limit * limit ≤ int_max ∧
  n ≤ ceil_div n limit * limit.
Proof.
  intros Hn Hl.
  destruct (ceil_div_spec n limit ltac:(lia) ltac:(lia)) as [_ [Hlo Hhi]].
  set (T := ceil_div n limit) in *.
  assert (0 ≤ T) as HT by nia.
  split; [done |]. split; [| done].
  destruct (decide (limit < n)) as [Hlt | Hge].
  - unfold int_max in *. lia.
  - assert (T ≤ 1) as HT1 by nia.
    assert (T = 0 ∨ T = 1) as [-> | ->] by lia; unfold int_max in *; lia.
Qed.

(** C6: for every limit from 1 to the largest [int] the data of the pages
    1 .. ceil(total_items / limit) appended are the whole snapshot sorted by
    URL: the entries of the map, each once, in strictly increasing order,
    also where the arithmetic of line 161 wraps around.  The bound on the
    size of the map holds of every map the process can hold: an entry is
    two strings, 32 bytes of headers alone, so 2^62 of them do not fit
    into a 64-bit address space. *)
Theorem pages_concat_snapshot (m : gmap string string) (limit : Z) :
  1 ≤ limit → limit ≤ int_max → Z.of_nat (size m) ≤ 2 ^ 62 →
  let statuses := sort_by_url (snapshot m) in
  let total_items := Z.of_nat (length statuses) in
  let total_pages := ceil_div total_items limit in
  pages_1_to total_pages limit statuses = Some statuses ∧
  (total_items = 0 → total_pages = 0) ∧
  StronglySorted url_lt statuses ∧
  NoDup (URL <$> statuses) ∧
  (∀ e, e ∈ statuses ↔ m !! URL e = Some (Status e)) ∧
  (∀ q, statusHandler q m =
        paginate (page_param (Get q "page")) (limit_param (Get q "limit"))
          statuses).
Proof.
  intros Hl Hm Hn statuses total_items total_pages.
  assert (total_items = Z.of_nat (size m)) as Hlen.
  { unfold total_items, statuses.
    by rewrite length_sort_by_url, length_snapshot. }
  destruct (ceil_pages_fit total_items limit ltac:(lia) ltac:(lia))
    as (HT & Hfit & Hcov).
  fold total_pages in HT, Hfit, Hcov.
  split; [by apply pages_1_to_cover |].
  split.
  { intros H0.
    destruct (ceil_div_spec total_items limit ltac:(lia) ltac:(lia))
      as [_ [_ Hhi]].
    fold total_pages in Hhi. nia. }
  split; [apply sort_by_url_strict, snapshot_NoDup |].
  split.
  { unfold statuses. rewrite (sort_by_url_perm (snapshot m)).
    apply snapshot_NoDup. }
  split; [| done].
  intros e. unfold statuses.
  rewrite (sort_by_url_perm (snapshot m)). apply elem_of_snapshot.
Qed.

Lemma pages_concat_snapshot_witness :
  pages_1_to (ceil_div (Z.of_nat (length (sort_by_url (snapshot sample_map))))
                int_max)
    int_max (sort_by_url (snapshot sample_map)) =
    Some (sort_by_url (snapshot sample_map)) ∧
  pages_1_to (ceil_div (Z.of_nat (length (sort_by_url (snapshot sample_map))))
                2)
    2 (sort_by_url (snapshot sample_map)) =
    Some (sort_by_url (snapshot sample_map)).
Proof.
  split.
  - destruct (pages_concat_snapshot sample_map int_max) as [H _];
      [vm_compute; discriminate .. | exact H].
  - destruct (pages_concat_snapshot sample_map 2) as [H _];
      [vm_compute; discriminate .. | exact H].
Defined.

(** The boundary case of three entries and [limit = 2]. *)
Example three_items_limit_two :
  let m := statusMap (startMonitoring sample_config [sample_round]) in
  (Data <$> statusHandler [("page", "1"); ("limit", "2")] m,
   TotalPages <$> statusHandler [("page", "1"); ("limit", "2")] m) =
    (Some [mkStatusEntry "a.com" "down"; mkStatusEntry "b.com" "up"], Some 2) ∧
  Data <$> statusHandler [("page", "2"); ("limit", "2")] m =
    Some [mkStatusEntry "c.com" "down"] ∧
  statusHandler [("page", "3"); ("limit", "2")] m = Some (mkResponse 2 3 []).
Proof. vm_compute. done. Qed.

(** C3 at the request [page=2&limit=9223372036854775807]: both parameters
    pass the defaulting unchanged, [start + limit] wraps around to -2, the
    upper clamp of lines 168-170 leaves the negative [end] alone, and the
    slice expression panics, whatever the map holds. *)
Theorem huge_limit_panics (m : gmap string string) :
  page_param "2" = 2 ∧
  limit_param "9223372036854775807" = int_max ∧
  int_add (int_mul (int_sub 2 1) int_max) int_max = -2 ∧
  statusHandler [("page", "2"); ("limit", "9223372036854775807")] m = None.
Proof.
  split; [done |]. split; [done |]. split; [done |].
  unfold statusHandler.
  change (page_param _) with 2. change (limit_param _) with int_max.
  unfold paginate. rewrite decide_False by done. cbv zeta.
  change (int_add (int_mul (int_sub 2 1) int_max) int_max) with (-2).
  change (int_mul (int_sub 2 1) int_max) with int_max.
  destruct (slice _ _ _) as [d |] eqn:Hs; [| done].
  apply slice_Some in Hs as [Hb _]. exfalso.
  destruct (Z.of_nat (length (sort_by_url (snapshot m))) <? -2) eqn:Hlt;
    destruct (Z.of_nat (length (sort_by_url (snapshot m))) <? int_max);
    unfold int_max in Hb; lia.
Qed.

(** C7 at the request [limit=9223372036854775807] after one round over
    three sites: [totalItems + limit - 1] wraps around and the response
    carries [totalPages = -1], where the ceiling of 3 / limit is 1. *)
Theorem total_pages_overflow :
  limit_param "9223372036854775807" = int_max ∧
  1 ≤ int_max ∧
  statusHandler [("limit", "9223372036854775807")]
    (statusMap (startMonitoring sample_config [sample_round])) =
  Some (mkResponse (-1) 1
          [mkStatusEntry "a.com" "down"; mkStatusEntry "b.com" "up";
           mkStatusEntry "c.com" "down"]) ∧
  ceil_div 3 int_max = 1.
Proof. vm_compute. repeat split; discriminate. Qed.

(** At the same store and limit a client that takes the number of pages
    from the [totalPages] field of the response finds -1 and so requests
    no page at all, although page 1 holds the three entries. *)
Theorem all_pages_overflow :
  let statuses :=
    sort_by_url (snapshot (statusMap (startMonitoring sample_config [sample_round]))) in
  statuses =
    [mkStatusEntry "a.com" "down"; mkStatusEntry "b.com" "up";
     mkStatusEntry "c.com" "down"] ∧
  1 ≤ int_max ∧
  all_pages int_max statuses = Some [].
Proof. vm_compute. repeat split; discriminate. Qed.

(** * Start-up *)

(** C9, as stated, fails in its "returns an error indication": with no
    [config.json] the load fails and the process exits with status 0, as
    after a normal run; nothing tells the caller of the process that the
    start-up was aborted. *)
Lemma config_failure_exits_zero :
  (loadConfiguration no_file reject_all "config.json").2 =
    Some "open config.json: no such file or directory" ∧
  main_termination no_file reject_all = Exits 0 ∧
  ¬ (∀ os_Open json_Decode err,
       (loadConfiguration os_Open json_Decode "config.json").2 = Some err →
       ∃ status, main_termination os_Open json_Decode = Exits status ∧
                 status ≠ 0).
Proof.
  split; [reflexivity |]. split; [reflexivity |].
  intros H.
  destruct (H no_file reject_all
              "open config.json: no such file or directory" eq_refl)
    as (status & Hs & Hne).
  vm_compute in Hs. injection Hs as <-. done.
Qed.

(** C9, amended: when the configuration file cannot be opened or does not
    decode, [loadConfiguration] returns an error; [main] then prints it on
    standard output and returns: the API server goroutine is not started
    and [startMonitoring] is not called.  The process exits with status 0;
    the printed line is the only sign of the failure. *)
Theorem config_failure_aborts
    (os_Open : string → string + string)
    (json_Decode : string → Config * option string) :
  (∀ err, os_Open "config.json" = inr err →
     (loadConfiguration os_Open json_Decode "config.json").2 = Some err) ∧
  (∀ contents config err,
     os_Open "config.json" = inl contents →
     json_Decode contents = (config, Some err) →
     (loadConfiguration os_Open json_Decode "config.json").2 = Some err) ∧
  (∀ err,
     (loadConfiguration os_Open json_Decode "config.json").2 = Some err →
     main os_Open json_Decode =
       [Println "Uptime Monitor Starting...";
        PrintlnError "Error loading configuration:" err] ∧
     (GoStartAPIServer ∉ main os_Open json_Decode) ∧
     (∀ config, StartMonitoring config ∉ main os_Open json_Decode) ∧
     main_termination os_Open json_Decode = Exits 0).
Proof.
  split; [| split].
  - intros err Ho. unfold loadConfiguration. by rewrite Ho.
  - intros contents config err Ho Hd. unfold loadConfiguration.
    by rewrite Ho, Hd.
  - intros err Hl. unfold main, main_termination.
    destruct (loadConfiguration os_Open json_Decode "config.json")
      as [config e]. simpl in Hl. subst e.
    split; [done |].
    split; [| split; [intros c | done]]; rewrite !not_elem_of_cons;
      (repeat split; [discriminate .. | apply not_elem_of_nil]).
Qed.

Lemma config_failure_aborts_witness :
  main no_file reject_all =
    [Println "Uptime Monitor Starting...";
     PrintlnError "Error loading configuration:"
       "open config.json: no such file or directory"] ∧
  (GoStartAPIServer ∉ main no_file reject_all) ∧
  main_termination no_file reject_all = Exits 0.
Proof.
  pose proof (config_failure_aborts no_file reject_all) as (_ & _ & H).
  destruct (H "open config.json: no such file or directory")
    as (H1 & H2 & _ & H4).
  - reflexivity.
  - split; [| split]; assumption.
Defined.

(** * Schedules: which probe decides, and how many alerts go out *)

Section Schedules.
Context (config : Config).

Lemma lookup_checkWebsite_eq url emailConfig get w :
  statusMap (exec (checkWebsite url emailConfig get) w) !! url =
  Some (status_of (outcome get)).
Proof.
  rewrite exec_checkWebsite.
  destruct (outcome get); [| case_bool_decide as Hl]; simpl;
    rewrite ?lookup_insert_eq; try done.
  apply lastStatus_down. by destruct (decide (lastStatus w url = "down")).
Qed.

Lemma run_snoc sched p w :
  run config (sched ++ [p]) w =
  exec (checkWebsite p.1 (Email config) p.2) (run config sched w).
Proof. by rewrite run_app. Qed.

Lemma probes_of_snoc url sched p :
  probes_of url (sched ++ [p]) =
  probes_of url sched ++ (if decide (p.1 = url) then [p] else []).
Proof.
  unfold probes_of. rewrite filter_app, filter_cons, filter_nil.
  by case_decide.
Qed.

Lemma lookup_run_last sched w url :
  statusMap (run config sched w) !! url =
  match last (probes_of url sched) with
  | Some p => Some (status_of (outcome p.2))
  | None => statusMap w !! url
  end.
Proof.
  induction sched as [| [u get] sched IH] using rev_ind; [done |].
  rewrite run_snoc, probes_of_snoc. simpl.
  destruct (decide (u = url)) as [-> | Hne].
  - rewrite last_snoc. apply lookup_checkWebsite_eq.
  - rewrite app_nil_r, <- IH.
    by apply (checkWebsite_other u (Email config) get _ url).
Qed.

Lemma step_up url get w :
  outcome get = Up →
  lastStatus (exec (checkWebsite url (Email config) get) w) url = "up" ∧
  notifications url
    (emitted w (exec (checkWebsite url (Email config) get) w)) = 0%nat.
Proof.
  intros Ho. destruct (checkWebsite_up url (Email config) get w Ho)
    as (Hs & _ & Hn).
  split; [| apply Hn]. unfold lastStatus. by rewrite Hs.
Qed.

Lemma notifications_run sched w url :
  notifications url (emitted w (run config sched w)) =
  outages (lastStatus w url) ((λ p, outcome p.2) <$> probes_of url sched).
Proof.
  revert w. induction sched as [| [u get] sched IH]; intros w.
  { unfold run; simpl. by rewrite emitted_refl. }
  rewrite (emitted_run_cons config (u, get) sched w),
    notifications_app, IH. simpl.
  unfold probes_of. rewrite filter_cons. simpl.
  destruct (decide (u = url)) as [-> | Hne].
  - rewrite fmap_cons. simpl. destruct (outcome get) eqn:Ho.
    + destruct (step_up url get w Ho) as [-> ->]. done.
    + destruct (step_down config url get w Ho) as [-> ->]. done.
  - destruct (checkWebsite_other u (Email config) get w url (not_eq_sym Hne))
      as [Hm ->].
    unfold lastStatus. by rewrite Hm.
Qed.

Lemma outages_bounds stored os :
  (outages stored os ≤ length (filter (λ o, o = Down) os))%nat ∧
  (outages stored os ≤ 1 + length (filter (λ o, o = Up) os))%nat ∧
  (stored = "down" → outages stored os ≤ length (filter (λ o, o = Up) os))%nat.
Proof.
  revert stored. induction os as [| o os IH]; intros stored; simpl.
  { repeat split; lia. }
  rewrite !filter_cons.
  destruct o; simpl.
  - destruct (IH "up") as (H1 & H2 & _).
    repeat case_decide; try done; simpl; repeat split; intros; lia.
  - destruct (IH "down") as (H1 & _ & H3). specialize (H3 eq_refl).
    repeat case_decide; try done; simpl; repeat split; intros;
      try congruence; lia.
Qed.

End Schedules.

Lemma rounds_concat config rounds w :
  foldl (λ w sched, run config sched w) w rounds = run config (concat rounds) w.
Proof.
  revert w. induction rounds as [| sched rounds IH]; intros w; [done |].
  simpl. by rewrite IH, run_app.
Qed.

Lemma probes_of_NoDup url sched :
  NoDup sched.*1 → (length (probes_of url sched) ≤ 1)%nat.
Proof.
  induction sched as [| [u get] sched IH]; simpl; [lia |].
  intros [Hnot Hnd]%NoDup_cons. unfold probes_of. rewrite filter_cons. simpl.
  case_decide as Hu; [| by apply IH]. subst u. simpl.
  assert (probes_of url sched = []) as Hnil; [| unfold probes_of in Hnil;
    rewrite Hnil; simpl; lia].
  destruct (probes_of url sched) as [| [u' g'] l] eqn:Hl; [done |].
  exfalso. apply Hnot.
  assert ((u', g') ∈ probes_of url sched) as Hin by (rewrite Hl; by left).
  apply list_elem_of_filter in Hin as [Hu' Hin]. simpl in Hu'. subst u'.
  by apply (list_elem_of_fmap_2 fst) in Hin.
Qed.

Lemma probes_of_perm url sched1 sched2 :
  sched1 ≡ₚ sched2 → NoDup sched1.*1 →
  probes_of url sched1 = probes_of url sched2.
Proof.
  intros Hp Hnd.
  assert (probes_of url sched1 ≡ₚ probes_of url sched2) as Hpp.
  { unfold probes_of. by rewrite Hp. }
  pose proof (probes_of_NoDup url sched1 Hnd) as Hlen.
  destruct (probes_of url sched1) as [| p [| q l]]; simpl in Hlen; [| | lia].
  - by apply Permutation_nil_l.
  - by apply Permutation_singleton_l.
Qed.

(** X1: after any run, the status stored for a site is the one of its last
    probe in the run, [up] or [down] by the outcome, and the status of a
    site without a probe is what it was; from start-up on, a site has an
    entry exactly when it has been probed. *)
Theorem last_probe_decides (config : Config) :
  (∀ sched w url,
     statusMap (run config sched w) !! url =
     match last (probes_of url sched) with
     | Some p => Some (status_of (outcome p.2))
     | None => statusMap w !! url
     end) ∧
  (∀ rounds url,
     statusMap (startMonitoring config rounds) !! url =
     (λ p, status_of (outcome p.2)) <$> last (probes_of url (concat rounds))).
Proof.
  split; [apply lookup_run_last |].
  intros rounds url. unfold startMonitoring.
  rewrite rounds_concat, lookup_run_last.
  by destruct (last (probes_of url (concat rounds))).
Qed.

(** X2: within a round over distinct sites the order in which the
    goroutines reach the mutex does not matter: two schedules with the
    same probes leave the same status map and send the same number of
    notifications for every site. *)
Theorem round_order_irrelevant (config : Config) sched1 sched2 w :
  sched1 ≡ₚ sched2 → NoDup sched1.*1 →
  statusMap (run config sched1 w) = statusMap (run config sched2 w) ∧
  ∀ url, notifications url (emitted w (run config sched1 w)) =
         notifications url (emitted w (run config sched2 w)).
Proof.
  intros Hp Hnd. split.
  - apply map_eq. intros url. rewrite !lookup_run_last.
    by rewrite (probes_of_perm url sched1 sched2).
  - intros url. rewrite !notifications_run.
    by rewrite (probes_of_perm url sched1 sched2).
Qed.

Lemma round_order_irrelevant_witness :
  statusMap (run sample_config sample_round init) =
  statusMap (run sample_config sample_round_in_order init) ∧
  notifications "c.com" (emitted init (run sample_config sample_round init)) =
  notifications "c.com"
    (emitted init (run sample_config sample_round_in_order init)).
Proof.
  destruct (round_order_irrelevant sample_config sample_round
              sample_round_in_order init) as [H1 H2].
  - unfold sample_round, sample_round_in_order.
    apply (Permutation_app_comm
      [("b.com", GetResponse 200 "200 OK"); ("c.com", GetError "no such host")]
      [("a.com", GetResponse 500 "500 Internal Server Error")]).
  - simpl. repeat (apply NoDup_cons; split;
      [rewrite ?elem_of_cons, ?elem_of_nil; intros H; repeat destruct H as [H | H];
         done |]).
    apply NoDup_nil_2.
  - split; [exact H1 | exact (H2 "c.com")].
Defined.

(** X3: the number of notifications a run sends for a site is the number
    of its outages: the Down outcomes of the site that do not follow a
    stored [down].  It never exceeds the number of Down probes of the site,
    and between two notifications there is an Up probe. *)
Theorem notifications_count_outages (config : Config) sched w url :
  let outcomes := (λ p, outcome p.2) <$> probes_of url sched in
  notifications url (emitted w (run config sched w)) =
    outages (lastStatus w url) outcomes ∧
  (notifications url (emitted w (run config sched w)) ≤
     length (filter (λ o, o = Down) outcomes))%nat ∧
  (notifications url (emitted w (run config sched w)) ≤
     1 + length (filter (λ o, o = Up) outcomes))%nat.
Proof.
  intros outcomes. rewrite notifications_run. fold outcomes.
  destruct (outages_bounds (lastStatus w url) outcomes) as (H1 & H2 & _).
  done.
Qed.

(** X4: every probe of a run prints exactly one line, and every call of
    [sendEmail] in a run is made with the e-mail settings of the
    configuration, for a site that had a probe with a Down outcome in that
    run. *)
Theorem notification_provenance (config : Config) sched w :
  length (filter is_print (emitted w (run config sched w))) = length sched ∧
  ∀ emailConfig url,
    SendEmail emailConfig url ∈ emitted w (run config sched w) →
    emailConfig = Email config ∧
    ∃ get, (url, get) ∈ sched ∧ outcome get = Down.
Proof.
  revert w. induction sched as [| [u get] sched IH]; intros w.
  { unfold run; simpl. rewrite emitted_refl. split; [done |].
    intros ?? Hin. by apply elem_of_nil in Hin. }
  rewrite (emitted_run_cons config (u, get) sched w). simpl.
  set (w1 := exec (checkWebsite u (Email config) get) w).
  destruct (IH w1) as [IHn IHe]. clear IH.
  pose proof (emitted_checkWebsite u (Email config) get w) as He.
  fold w1 in He.
  pose proof (printed_no_email u get) as Hp.
  split.
  - rewrite filter_app, length_app, IHn, He.
    destruct (outcome get); [| case_bool_decide];
      rewrite !filter_cons, filter_nil;
      rewrite (decide_True (P := is_print (printed u get))) by exact Hp;
      rewrite ?(decide_False (P := is_print (SendEmail _ _))) by done;
      done.
  - intros ec url [Hin | Hin]%elem_of_app.
    + rewrite He in Hin.
      assert (SendEmail ec url ≠ printed u get) as Hne.
      { intros Heq. rewrite <- Heq in Hp. done. }
      destruct (outcome get) eqn:Ho; [| case_bool_decide];
        rewrite ?elem_of_cons, ?list_elem_of_singleton, ?elem_of_nil in Hin;
        try (by destruct Hin as [? | ?]); try done.
      destruct Hin as [? | [[= -> ->] | []]]; [done |].
      split; [done |]. exists get. split; [by left | done].
    + destruct (IHe ec url Hin) as (-> & g & Hg & Ho).
      split; [done |]. exists g. split; [by right | done].
Qed.

Lemma notification_provenance_witness :
  sample_email = Email sample_config ∧
  ∃ get, ("c.com", get) ∈ sample_round ∧ outcome get = Down.
Proof.
  destruct (notification_provenance sample_config sample_round init) as [_ H].
  apply (H sample_email "c.com").
  vm_compute. do 2 right. left.
Defined.

(** * The handler on every request *)

Lemma Atoi_range s n : Atoi s = Some n → int_min ≤ n ≤ int_max.
Proof.
  unfold Atoi.
  match goal with
  | |- context [let '(_, _) := ?x in _] => destruct x as [neg body]
  end.
  case_decide; [done |].
  destruct (parse_digits body 0) as [k |]; simpl; [| done].
  destruct ((int_min <=? (if neg then - k else k)) &&
            ((if neg then - k else k) <=? int_max)) eqn:Hr; [| done].
  intros [= <-]. lia.
Qed.

Lemma params_in_range s :
  1 ≤ page_param s ≤ int_max ∧ 1 ≤ limit_param s ≤ int_max.
Proof.
  unfold page_param, limit_param.
  destruct (Atoi s) as [n |] eqn:Hn; [| done].
  apply Atoi_range in Hn.
  destruct (n <? 1) eqn:Hlt; [done | lia].
Qed.

Lemma digit_not_sign c d :
  digit c = Some d → c ≠ "-"%char ∧ c ≠ "+"%char.
Proof. intros Hd. split; intros ->; discriminate. Qed.

Lemma Atoi_too_large s n :
  parse_digits s 0 = Some n → int_max < n → Atoi s = None.
Proof.
  intros Hp Hn. destruct s as [| c s].
  { simpl in Hp. injection Hp as <-. done. }
  assert (∃ d, digit c = Some d) as [d Hd].
  { simpl in Hp. destruct (digit c) as [d |]; [by exists d | done]. }
  destruct (digit_not_sign c d Hd) as [Hm Hpl].
  unfold Atoi.
  assert (match String c s with
          | String "-"%char rest => (true, rest)
          | String "+"%char rest => (false, rest)
          | _ => (false, String c s)
          end = (false, String c s)) as ->.
  { destruct c as [[] [] [] [] [] [] [] []]; done. }
  rewrite decide_False by done. rewrite Hp. simpl.
  assert ((n <=? int_max) = false) as -> by lia.
  by rewrite andb_false_r.
Qed.

(** X5: whatever the query holds, the effective page and limit lie between
    1 and the largest [int], so the division of line 161 never divides by
    zero; a number too large for an [int] is treated like a missing one,
    so such a [limit] becomes 10 and such a [page] becomes 1. *)
Theorem effective_params_in_range :
  (∀ s, 1 ≤ page_param s ≤ int_max ∧ 1 ≤ limit_param s ≤ int_max) ∧
  (∀ s n, parse_digits s 0 = Some n → int_max < n →
     page_param s = 1 ∧ limit_param s = 10).
Proof.
  split; [apply params_in_range |].
  intros s n Hp Hn. unfold page_param, limit_param.
  by rewrite (Atoi_too_large s n Hp Hn).
Qed.

Lemma effective_params_in_range_witness :
  page_param "9223372036854775808" = 1 ∧
  limit_param "9223372036854775808" = 10.
Proof.
  destruct effective_params_in_range as [_ H].
  apply (H "9223372036854775808" 9223372036854775808); reflexivity.
Defined.

Lemma wrap_range z : int_min ≤ wrap z ≤ int_max.
Proof.
  unfold wrap, int_min, int_max.
  pose proof (Z.mod_pos_bound (z + 2 ^ 63) (2 ^ 64) ltac:(lia)). lia.
Qed.

Lemma wrap_add_nonneg a b :
  0 ≤ a ≤ int_max → 1 ≤ b ≤ int_max →
  wrap (a + b) = a + b ∨ wrap (a + b) < 0.
Proof.
  intros Ha Hb. destruct (decide (a + b ≤ int_max)) as [Hs | Hl].
  - left. apply wrap_small. int_lia.
  - right. unfold wrap, int_min, int_max in *.
    replace (a + b + 2 ^ 63) with (a + b + 2 ^ 63 - 2 ^ 64 + 1 * 2 ^ 64)
      by lia.
    rewrite Z_mod_plus_full, Z.mod_small; lia.
Qed.

Lemma StronglySorted_sublist {A} (R : relation A) l1 l2 :
  l1 `sublist_of` l2 → StronglySorted R l2 → StronglySorted R l1.
Proof.
  induction 1 as [| x l1 l2 Hsub IH | x l1 l2 Hsub IH]; intros Hs.
  - constructor.
  - apply StronglySorted_inv in Hs as [Hs Hx].
    constructor; [by apply IH |].
    rewrite Forall_forall in Hx |- *. intros y Hy. apply Hx.
    by eapply elem_of_sublist.
  - apply StronglySorted_inv in Hs as [Hs _]. by apply IH.
Qed.

Lemma paginate_length page limit statuses resp :
  1 ≤ limit ≤ int_max →
  paginate page limit statuses = Some resp →
  Z.of_nat (length (Data resp)) ≤ limit.
Proof.
  intros Hl. unfold paginate. rewrite decide_False by lia. cbv zeta.
  set (n := Z.of_nat (length statuses)).
  set (start := int_mul (int_sub page 1) limit).
  set (end_ := int_add start limit).
  destruct (slice statuses _ _) as [d |] eqn:Hs; simpl; [| done].
  intros [= <-]. simpl.
  apply slice_Some in Hs as [(Hlo & Hhi) ->].
  pose proof (wrap_range ((int_sub page 1) * limit)) as Hsr.
  fold (int_mul (int_sub page 1) limit) in Hsr. fold start in Hsr.
  rewrite length_take, length_drop.
  destruct (n <? start) eqn:H1; destruct (n <? end_) eqn:H2; try lia.
  - destruct (wrap_add_nonneg start limit ltac:(lia) Hl) as [He | He];
      fold (int_add start limit) in He; fold end_ in He; lia.
  - destruct (wrap_add_nonneg start limit ltac:(lia) Hl) as [He | He];
      fold (int_add start limit) in He; fold end_ in He; lia.
Qed.

Lemma handler_in_range_aux (q : Values) (m : gmap string string) :
  page_param (Get q "page") * limit_param (Get q "limit") ≤ int_max →
  Z.of_nat (size m) + limit_param (Get q "limit") - 1 ≤ int_max →
  statusHandler q m =
  Some (mkResponse
          (ceil_div (Z.of_nat (size m)) (limit_param (Get q "limit")))
          (page_param (Get q "page"))
          (take (Z.to_nat (limit_param (Get q "limit")))
             (drop (Z.to_nat ((page_param (Get q "page") - 1) *
                              limit_param (Get q "limit")))
                (sort_by_url (snapshot m))))).
Proof.
  intros Hpl Hn. unfold statusHandler.
  destruct (params_in_range (Get q "page")) as [Hp _].
  destruct (params_in_range (Get q "limit")) as [_ Hl].
  rewrite paginate_in_range by lia.
  rewrite length_sort_by_url, length_snapshot.
  by rewrite totalPages_ceil by lia.
Qed.

(** * Defaulting of the query parameters *)

(** C5: the handler paginates with [page_param] of the [page] parameter
    and [limit_param] of the [limit] parameter: the response names that
    page and holds the [limit] entries from offset [(page - 1) * limit].
    [page] falls back to 1 and [limit] to 10 when the parameter is absent,
    is not a number, or is below 1; any parsed value from 1 upwards is
    used as it is, so [limit] has no upper bound of the handler's own.
    Requests with page 0, -5, x or no page answer like page 1, and requests
    with limit 0, -1 or no limit answer like limit 10. *)
Theorem param_defaulting :
  (∀ q m,
     statusHandler q m =
     paginate (page_param (Get q "page")) (limit_param (Get q "limit"))
       (sort_by_url (snapshot m))) ∧
  (∀ q m resp, statusHandler q m = Some resp →
     CurrentPage resp = page_param (Get q "page")) ∧
  (∀ q m,
     page_param (Get q "page") * limit_param (Get q "limit") ≤ int_max →
     Data <$> statusHandler q m =
     Some (take (Z.to_nat (limit_param (Get q "limit")))
             (drop (Z.to_nat ((page_param (Get q "page") - 1) *
                              limit_param (Get q "limit")))
                (sort_by_url (snapshot m))))) ∧
  (∀ s, Atoi s = None ∨ (∃ n, Atoi s = Some n ∧ n < 1) →
     page_param s = 1 ∧ limit_param s = 10) ∧
  (∀ s n, Atoi s = Some n → 1 ≤ n → page_param s = n ∧ limit_param s = n) ∧
  (∀ q key, key ∉ q.*1 → Get q key = "" ∧ Atoi (Get q key) = None) ∧
  (Atoi "0" = Some 0 ∧ Atoi "-5" = Some (-5) ∧ Atoi "x" = None ∧
   Atoi "-1" = Some (-1)) ∧
  (∀ q q' m,
     Get q "limit" = Get q' "limit" →
     Get q "page" ∈ ["0"; "-5"; "x"; ""] → Get q' "page" = "1" →
     statusHandler q m = statusHandler q' m) ∧
  (∀ q q' m,
     Get q "page" = Get q' "page" →
     Get q "limit" ∈ ["0"; "-1"; ""] → Get q' "limit" = "10" →
     statusHandler q m = statusHandler q' m).
Proof.
  split; [done |].
  split.
  { intros q m resp Hh. unfold statusHandler in Hh.
    by apply paginate_Some in Hh as [? _]. }
  split.
  { intros q m Hpl. unfold statusHandler.
    destruct (params_in_range (Get q "page")) as [Hp _].
    destruct (params_in_range (Get q "limit")) as [_ Hl].
    by rewrite paginate_in_range by lia. }
  split; [| split; [| split; [| split; [| split]]]].
  - intros s [Hn | (n & Hn & Hlt)]; unfold page_param, limit_param;
      rewrite Hn; [done |].
    assert ((n <? 1) = true) as -> by lia. done.
  - intros s n Hn Hge. unfold page_param, limit_param. rewrite Hn.
    assert ((n <? 1) = false) as -> by lia. done.
  - intros q key Hk. rewrite (Get_absent q key Hk). done.
  - done.
  - intros q q' m Hl Hp Hp'. unfold statusHandler. rewrite Hl, Hp'.
    repeat (apply elem_of_cons in Hp as [-> | Hp]; [done |]).
    by apply elem_of_nil in Hp.
  - intros q q' m Hp Hl Hl'. unfold statusHandler. rewrite Hp, Hl'.
    repeat (apply elem_of_cons in Hl as [-> | Hl]; [done |]).
    by apply elem_of_nil in Hl.
Qed.

Lemma param_defaulting_witness :
  statusHandler [("page", "-5"); ("limit", "2")] sample_map =
    statusHandler [("limit", "2"); ("page", "1")] sample_map ∧
  Data <$> statusHandler [("page", "x"); ("limit", "0")] sample_map =
    Some (take (Z.to_nat 10) (drop (Z.to_nat ((1 - 1) * 10))
            (sort_by_url (snapshot sample_map)))) ∧
  Data <$> statusHandler [("limit", "5000000000")] sample_map =
    Some (take (Z.to_nat 5000000000) (drop (Z.to_nat ((1 - 1) * 5000000000))
            (sort_by_url (snapshot sample_map)))).
Proof.
  pose proof param_defaulting as (_ & _ & Hd & _ & _ & _ & _ & H & _).
  split; [| split].
  - apply H.
    + reflexivity.
    + vm_compute. right. left.
    + reflexivity.
  - apply (Hd [("page", "x"); ("limit", "0")] sample_map).
    vm_compute. discriminate.
  - apply (Hd [("limit", "5000000000")] sample_map).
    vm_compute. discriminate.
Defined.

(** X6: a request whose [page * limit] fits into an [int] is answered, not
    refused: the response names the effective page, its [totalPages] is
    the ceiling of the number of entries over [limit], and its data are the
    [limit] entries from offset [(page - 1) * limit] of the entries sorted
    by URL, fewer or none where the entries run out. *)
Theorem handler_in_range (q : Values) (m : gmap string string) :
  let page := page_param (Get q "page") in
  let limit := limit_param (Get q "limit") in
  page * limit ≤ int_max →
  Z.of_nat (size m) + limit - 1 ≤ int_max →
  statusHandler q m =
  Some (mkResponse (ceil_div (Z.of_nat (size m)) limit) page
          (take (Z.to_nat limit)
             (drop (Z.to_nat ((page - 1) * limit))
                (sort_by_url (snapshot m))))).
Proof.
  intros page limit Hpl Hn. by apply handler_in_range_aux.
Qed.

Lemma handler_in_range_witness :
  statusHandler [("page", "2"); ("limit", "2")] sample_map =
  Some (mkResponse (ceil_div (Z.of_nat (size sample_map)) 2) 2
          (take (Z.to_nat 2)
             (drop (Z.to_nat ((2 - 1) * 2))
                (sort_by_url (snapshot sample_map))))).
Proof.
  apply (handler_in_range [("page", "2"); ("limit", "2")] sample_map);
    vm_compute; discriminate.
Defined.

(** X7: whenever the handler answers, also where the arithmetic has
    wrapped around, the response holds at most [limit] entries, they are
    entries of the map in strictly increasing order of URL, and
    [currentPage] is the effective page. *)
Theorem response_bounded (q : Values) (m : gmap string string) resp :
  statusHandler q m = Some resp →
  Z.of_nat (length (Data resp)) ≤ limit_param (Get q "limit") ∧
  StronglySorted url_lt (Data resp) ∧
  (∀ e, e ∈ Data resp → m !! URL e = Some (Status e)) ∧
  CurrentPage resp = page_param (Get q "page").
Proof.
  intros Hh.
  destruct (params_in_range (Get q "limit")) as [_ Hl].
  pose proof Hh as Hh'. unfold statusHandler in Hh'.
  destruct (paginate_Some _ _ _ _ Hh') as [Hp Hsub].
  split; [by eapply paginate_length |].
  split; [| split; [| done]].
  - eapply StronglySorted_sublist; [done |].
    apply sort_by_url_strict, snapshot_NoDup.
  - intros e. by apply statusHandler_entries with q.
Qed.

Lemma response_bounded_witness :
  Z.of_nat (length [mkStatusEntry "a.com" "down"; mkStatusEntry "b.com" "up"]) ≤
    limit_param (Get [("page", "4611686018427387905"); ("limit", "4")] "limit") ∧
  StronglySorted url_lt
    [mkStatusEntry "a.com" "down"; mkStatusEntry "b.com" "up"].
Proof.
  destruct (response_bounded
    [("page", "4611686018427387905"); ("limit", "4")]
    (<["b.com" := "up"]> {["a.com" := "down"]})
    (mkResponse 1 4611686018427387905
       [mkStatusEntry "a.com" "down"; mkStatusEntry "b.com" "up"]))
    as (H1 & H2 & _).
  - vm_compute. reflexivity.
  - split; [exact H1 | exact H2].
Defined.

(** X8: for a request whose arithmetic fits into an [int], the response
    tells a client how to page: the data are empty exactly when
    [currentPage] lies beyond [totalPages], every page before the last one
    holds exactly [limit] entries, and the last one holds the rest. *)
Theorem page_fill (q : Values) (m : gmap string string) resp :
  let page := page_param (Get q "page") in
  let limit := limit_param (Get q "limit") in
  let n := Z.of_nat (size m) in
  page * limit ≤ int_max →
  n + limit - 1 ≤ int_max →
  statusHandler q m = Some resp →
  (Data resp = [] ↔ TotalPages resp < CurrentPage resp) ∧
  (CurrentPage resp < TotalPages resp →
     Z.of_nat (length (Data resp)) = limit) ∧
  (CurrentPage resp = TotalPages resp →
     Z.of_nat (length (Data resp)) = n - (page - 1) * limit).
Proof.
  intros page limit n Hpl Hn Hh.
  rewrite (handler_in_range_aux q m) in Hh by done.
  injection Hh as <-. simpl. fold page limit n.
  destruct (params_in_range (Get q "page")) as [Hp _].
  destruct (params_in_range (Get q "limit")) as [_ Hl].
  fold page in Hp. fold limit in Hl.
  assert (0 ≤ n) as Hn0 by (unfold n; lia).
  destruct (ceil_div_spec n limit Hn0 ltac:(lia)) as [_ [Hlo Hhi]].
  set (T := ceil_div n limit) in *.
  assert (length (sort_by_url (snapshot m)) = Z.to_nat n) as Hlen.
  { rewrite length_sort_by_url, length_snapshot. unfold n. lia. }
  split; [| split].
  - rewrite <- length_zero_iff_nil, length_take, length_drop, Hlen.
    split; intros H; nia.
  - intros H. rewrite length_take, length_drop, Hlen. nia.
  - intros H. rewrite length_take, length_drop, Hlen. nia.
Qed.

Lemma page_fill_witness :
  Z.of_nat (length [mkStatusEntry "a.com" "down"; mkStatusEntry "b.com" "up"]) =
    limit_param (Get [("page", "1"); ("limit", "2")] "limit") ∧
  Z.of_nat (length [mkStatusEntry "c.com" "down"]) =
    Z.of_nat (size sample_map) -
    (page_param (Get [("page", "2"); ("limit", "2")] "page") - 1) *
    limit_param (Get [("page", "2"); ("limit", "2")] "limit") ∧
  (([] : list StatusEntry) = [] ↔ 2 < 3).
Proof.
  split; [| split].
  - destruct (page_fill [("page", "1"); ("limit", "2")] sample_map
      (mkResponse 2 1
         [mkStatusEntry "a.com" "down"; mkStatusEntry "b.com" "up"]))
      as (_ & H & _).
    + vm_compute. discriminate.
    + vm_compute. discriminate.
    + vm_compute. reflexivity.
    + apply H. reflexivity.
  - destruct (page_fill [("page", "2"); ("limit", "2")] sample_map
      (mkResponse 2 2 [mkStatusEntry "c.com" "down"])) as (_ & _ & H).
    + vm_compute. discriminate.
    + vm_compute. discriminate.
    + vm_compute. reflexivity.
    + apply H. reflexivity.
  - destruct (page_fill [("page", "3"); ("limit", "2")] sample_map
      (mkResponse 2 3 [])) as (H & _).
    + vm_compute. discriminate.
    + vm_compute. discriminate.
    + vm_compute. reflexivity.
    + exact H.
Defined.

(** X9: the response does not depend on the order in which Go ranges over
    the map: whatever order the entries are collected in, sorting by URL
    and paginating gives the response of the handler. *)
Theorem response_order_irrelevant (q : Values) (m : gmap string string)
    (statuses : list StatusEntry) :
  statuses ≡ₚ snapshot m →
  paginate (page_param (Get q "page")) (limit_param (Get q "limit"))
    (sort_by_url statuses) = statusHandler q m.
Proof.
  intros Hp. unfold statusHandler.
  rewrite (sort_by_url_order_irrelevant (snapshot m) statuses);
    [done | apply snapshot_NoDup | done].
Qed.

Lemma response_order_irrelevant_witness :
  paginate (page_param (Get [("limit", "2")] "page"))
    (limit_param (Get [("limit", "2")] "limit"))
    (sort_by_url
       [mkStatusEntry "c.com" "down"; mkStatusEntry "b.com" "up";
        mkStatusEntry "a.com" "down"]) =
  statusHandler [("limit", "2")] sample_map.
Proof.
  apply (response_order_irrelevant [("limit", "2")] sample_map).
  rewrite <- (sort_by_url_perm (snapshot sample_map)).
  change (sort_by_url (snapshot sample_map)) with
    [mkStatusEntry "a.com" "down"; mkStatusEntry "b.com" "up";
     mkStatusEntry "c.com" "down"].
  apply (reverse_Permutation
    [mkStatusEntry "a.com" "down"; mkStatusEntry "b.com" "up";
     mkStatusEntry "c.com" "down"]).
Defined.

Lemma pages_cover_snapshot_witness :
  all_pages 2 (sort_by_url (snapshot sample_map)) =
    Some (sort_by_url (snapshot sample_map)) ∧
  NoDup (sort_by_url (snapshot sample_map)).
Proof.
  destruct (pages_cover_snapshot sample_map 2) as (H1 & _ & H3 & _).
  - vm_compute. discriminate.
  - vm_compute. discriminate.
  - vm_compute. discriminate.
  - split; [exact H1 | exact H3].
Defined.

Example itoa_examples :
  itoa 587 = "587" ∧ itoa 0 = "0" ∧ itoa (-25) = "-25".
Proof. vm_compute. done. Qed.

(** * The alert message *)

Lemma append_assoc a b c : (a ++ (b ++ c))%string = ((a ++ b) ++ c)%string.
Proof.
  induction a as [| x a IH]; [done |].
  change (String x (a ++ (b ++ c)) = String x ((a ++ b) ++ c))%string.
  f_equal. exact IH.
Qed.

Lemma has_CR_app a b : has_CR (a ++ b)%string = has_CR a || has_CR b.
Proof.
  induction a as [| c a IH]; [done |].
  change (bool_decide (c = CR) || has_CR (a ++ b)%string =
          (bool_decide (c = CR) || has_CR a) || has_CR b).
  rewrite <- orb_assoc. f_equal. exact IH.
Qed.

Lemma split_crlf_line a rest :
  has_CR a = false →
  split_crlf (a ++ CRLF ++ rest)%string = a :: split_crlf rest.
Proof.
  induction a as [| c a IH]; intros Ha.
  { reflexivity. }
  simpl in Ha. apply orb_false_iff in Ha as [Hc Ha].
  apply bool_decide_eq_false in Hc.
  change (String c a ++ CRLF ++ rest)%string
    with (String c (a ++ CRLF ++ rest)%string).
  cbn [split_crlf]. rewrite (IH Ha), decide_False by done. done.
Qed.

Lemma split_crlf_blank rest :
  split_crlf (CRLF ++ rest)%string = "" :: split_crlf rest.
Proof. reflexivity. Qed.

(** X11: when neither the configured recipient nor the URL contains a
    carriage return, the message handed to [smtp.SendMail] reads, line by
    line: the To header, the Subject header naming the site, an empty
    line, and the one-line body naming the site; nothing else. *)
Theorem email_message_lines (emailConfig : EmailConfig) (url : string) :
  has_CR (Recipient emailConfig) = false →
  has_CR url = false →
  split_crlf (msg (email_call emailConfig url)) =
    [("To: " ++ Recipient emailConfig)%string;
     ("Subject: Website Down: " ++ url)%string;
     "";
     ("The website " ++ url ++ " is currently down.")%string;
     ""].
Proof.
  intros Hr Hu. unfold email_call. cbn [msg]. unfold email_msg.
  rewrite (append_assoc "To: " (Recipient emailConfig)).
  rewrite split_crlf_line by (by rewrite has_CR_app, Hr).
  rewrite (append_assoc "Subject: Website Down: " url).
  rewrite split_crlf_line by (by rewrite has_CR_app, Hu).
  rewrite split_crlf_blank.
  rewrite (append_assoc "The website " url),
    (append_assoc ("The website " ++ url) " is currently down.").
  replace CRLF with (CRLF ++ "")%string at 1 by done.
  rewrite split_crlf_line by (by rewrite !has_CR_app, Hu).
  by rewrite <- append_assoc.
Qed.

Lemma email_message_lines_witness :
  split_crlf (msg (email_call sample_email "c.com")) =
    ["To: admin@example.com"; "Subject: Website Down: c.com"; "";
     "The website c.com is currently down."; ""].
Proof.
  apply (email_message_lines sample_email "c.com"); reflexivity.
Defined.

(** * [null] or an array *)

Lemma foldl_go_append (l : list (string * string)) s :
  foldl (λ s kv, go_append s (mkStatusEntry kv.1 kv.2)) s l =
  match l with
  | [] => s
  | _ => Slice (go_elems s ++ ((λ kv, mkStatusEntry kv.1 kv.2) <$> l))
  end.
Proof.
  revert s. induction l as [| kv l IH]; intros s; [done |].
  simpl. rewrite IH. destruct l as [| kv' l]; [done |].
  unfold go_append. simpl. by rewrite <- app_assoc.
Qed.

Lemma collect_spec m :
  collect m = if decide (m = ∅) then NilSlice else Slice (snapshot m).
Proof.
  unfold collect, snapshot. rewrite foldl_go_append.
  case_decide as Hm.
  - subst m. by rewrite map_to_list_empty.
  - destruct (map_to_list m) eqn:Hl; [| done].
    by apply map_to_list_empty_iff in Hl.
Qed.

Lemma go_slice_nil lo hi :
  go_elems <$> go_slice NilSlice lo hi = slice [] lo hi.
Proof.
  unfold go_slice. destruct (slice [] lo hi) as [d |] eqn:Hs.
  - apply slice_Some in Hs as [[H1 H2] ->]. simpl in H2.
    assert (lo = 0) as -> by lia. assert (hi = 0) as -> by lia. done.
  - destruct ((lo =? 0) && (hi =? 0)) eqn:Hb; [| done].
    assert (lo = 0) as -> by lia. assert (hi = 0) as -> by lia. done.
Qed.

Lemma go_elems_collect m : go_elems (collect m) = snapshot m.
Proof.
  rewrite collect_spec. case_decide as Hm; [| done].
  subst m. unfold snapshot. by rewrite map_to_list_empty.
Qed.

Lemma paginatedData_paginate page limit s :
  go_elems <$> paginatedData page limit s =
    Data <$> paginate page limit (sort_by_url (go_elems s)) ∧
  ∀ r, paginatedData page limit s = Some r → (r = NilSlice ↔ s = NilSlice).
Proof.
  unfold paginatedData, paginate. case_decide; [done |]. cbv zeta.
  destruct s as [| l]; cbn [go_sort go_elems].
  - change (sort_by_url []) with ([] : list StatusEntry). split.
    + rewrite go_slice_nil. by destruct (slice [] _ _).
    + intros r. unfold go_slice. destruct (_ && _); [| done].
      by intros [= <-].
  - cbn [go_slice]. split.
    + by destruct (slice (sort_by_url l) _ _).
    + intros r. destruct (slice (sort_by_url l) _ _); [| done].
      simpl. intros [= <-]. done.
Qed.

(** X12: the value of [paginatedData] holds the entries of the response,
    and whenever the handler answers it is the nil slice, which
    [encoding/json] writes as [null], exactly when the status map is
    empty; over a map with entries a page without data is an empty array. *)
Theorem data_nil_iff_empty (q : Values) (m : gmap string string) :
  go_elems <$> statusHandler_data q m = Data <$> statusHandler q m ∧
  ∀ s, statusHandler_data q m = Some s → (s = NilSlice ↔ m = ∅).
Proof.
  unfold statusHandler_data, statusHandler.
  destruct (paginatedData_paginate (page_param (Get q "page"))
              (limit_param (Get q "limit")) (collect m)) as [He Hn].
  split.
  - by rewrite He, go_elems_collect.
  - intros s Hs. rewrite (Hn s Hs), collect_spec.
    case_decide; [done |]. split; [done | intros; by subst].
Qed.

Lemma data_nil_iff_empty_witness :
  (NilSlice = NilSlice ↔ (∅ : gmap string string) = ∅) ∧
  (Slice [] = NilSlice ↔ sample_map = ∅).
Proof.
  split.
  - destruct (data_nil_iff_empty [("page", "1")] ∅) as [_ H].
    apply H. reflexivity.
  - destruct (data_nil_iff_empty [("page", "3"); ("limit", "2")] sample_map)
      as [_ H].
    apply H. vm_compute. reflexivity.
Defined.

(** * From the probes to the response *)

(** X13: what the handler reports for a site is the outcome of the last
    probe of that site that has completed, also in the middle of a round:
    every entry of a response belongs to a site with a probe in the run so
    far, and its status is [up] or [down] by the outcome of the last
    one. *)
Theorem response_reports_last_probe (config : Config) sched q resp :
  statusHandler q (statusMap (run config sched init)) = Some resp →
  ∀ e, e ∈ Data resp →
    ∃ p, last (probes_of (URL e) sched) = Some p ∧
         Status e = status_of (outcome p.2).
Proof.
  intros Hh e He.
  pose proof (statusHandler_entries _ _ _ _ Hh He) as Hl.
  rewrite lookup_run_last in Hl.
  destruct (last (probes_of (URL e) sched)) as [p |].
  - exists p. split; [done | congruence].
  - simpl in Hl. by rewrite lookup_empty in Hl.
Qed.

Lemma response_reports_last_probe_witness :
  Forall (λ e, ∃ p, last (probes_of (URL e) sample_round) = Some p ∧
                    Status e = status_of (outcome p.2))
    [mkStatusEntry "c.com" "down"].
Proof.
  apply Forall_forall.
  apply (response_reports_last_probe sample_config sample_round
           [("page", "2"); ("limit", "2")]
           (mkResponse 2 2 [mkStatusEntry "c.com" "down"])).
  vm_compute. reflexivity.
Defined.
